(** * CodeVengers: the xorshift32 challenge scripts

    A shallow embedding of [solution-script.js] (the xorshift32 stepper, the
    sequence generator and the [solveChallenge] driver) and of
    [TestCode/test.js] (the verification-code driver [main]), together with
    the properties the specification states about them.

    JavaScript numbers that hold integers are modelled as [Z]; the 32-bit
    operators are written out with their ECMAScript conversions
    ([ToInt32], [ToUint32]) on top of [Z.lor], [Z.lxor], [Z.shiftl] and
    [Z.shiftr]. *)

From Stdlib Require Import ZArith Lia Bool.
From stdpp Require Import base tactics option list strings pretty.
From Equations Require Import Equations.

Local Open Scope Z_scope.

(** ** ECMAScript 32-bit integer operators *)

Module JS.

(** [ToInt32]: reduce modulo 2^32, then read the bit pattern as a signed
    two's-complement number. *)
Definition ToInt32 (n : Z) : Z :=
  let int32bit := n mod 2 ^ 32 in
  if int32bit >=? 2 ^ 31 then int32bit - 2 ^ 32 else int32bit.

(** [ToUint32]: reduce modulo 2^32. *)
Definition ToUint32 (n : Z) : Z := n mod 2 ^ 32.

(** [a | b] *)
Definition bitor (a b : Z) : Z := ToInt32 (Z.lor (ToInt32 a) (ToInt32 b)).

(** [a ^ b] *)
Definition bitxor (a b : Z) : Z := ToInt32 (Z.lxor (ToInt32 a) (ToInt32 b)).

(** [a << b]: the shift count is the low five bits of [b]. *)
Definition shl (a b : Z) : Z :=
  ToInt32 (Z.shiftl (ToInt32 a) (Z.land (ToUint32 b) 31)).

(** [a >> b]: sign-propagating right shift. *)
Definition sar (a b : Z) : Z :=
  ToInt32 (Z.shiftr (ToInt32 a) (Z.land (ToUint32 b) 31)).

End JS.

(** The 32-bit signed range. *)
Definition int32 (n : Z) : Prop := - 2 ^ 31 <= n < 2 ^ 31.

Definition is_int32 (n : Z) : bool := (- 2 ^ 31 <=? n) && (n <? 2 ^ 31).

(** ** [xorshift32] (solution-script.js, lines 9-34) *)

Definition xorshift32 (seed : Z) : Z :=
  let seed := JS.bitor seed 0 in
  let seed := JS.bitxor seed (JS.bitor (JS.shl seed 13) 0) in
  let seed := JS.bitxor seed (JS.bitor (JS.sar seed 17) 0) in
  let seed := JS.bitxor seed (JS.bitor (JS.shl seed 5) 0) in
  JS.bitor seed 0.

(** ** [generateSequence] (solution-script.js, lines 44-62)

    The [for] loop is a recursion on the loop counter [i]; it ends because
    [count - i] decreases.  [sequence.push] appends at the end.  [count] is
    an integer; a negative one leaves the loop at once. *)

Equations? (noind) generateSequence_loop
  (count i currentSeed : Z) (sequence : list Z) : list Z
  by wf (Z.to_nat (count - i)) lt :=
  generateSequence_loop count i currentSeed sequence with Z_lt_dec i count => {
    | left _ :=
        let currentSeed := xorshift32 currentSeed in
        generateSequence_loop count (i + 1) currentSeed (sequence ++ [currentSeed]);
    | right _ := sequence }.
Proof. lia. Qed.

Definition generateSequence (initialSeed count : Z) : list Z :=
  generateSequence_loop count 0 initialSeed [].

(** The same loop as a transition system on its three locals, for the
    statements that speak of runs of the generator. *)

Record LoopState := mkLoop {
  ls_i : Z;
  ls_currentSeed : Z;
  ls_sequence : list Z
}.

Definition loop_body (st : LoopState) : LoopState :=
  let currentSeed := xorshift32 (ls_currentSeed st) in
  {| ls_i := ls_i st + 1;
     ls_currentSeed := currentSeed;
     ls_sequence := ls_sequence st ++ [currentSeed] |}.

Inductive loop_step (count : Z) : LoopState -> LoopState -> Prop :=
  | loop_iterate st : ls_i st < count -> loop_step count st (loop_body st).

Inductive loop_run (count : Z) : LoopState -> list Z -> Prop :=
  | run_return st :
      ~ ls_i st < count -> loop_run count st (ls_sequence st)
  | run_iterate st st' out :
      loop_step count st st' -> loop_run count st' out -> loop_run count st out.

(** [generates s n out]: a run of [generateSequence(s, n)] returns [out]. *)
Definition generates (initialSeed count : Z) (out : list Z) : Prop :=
  loop_run count (mkLoop 0 initialSeed []) out.

(** ** The stepper as the specification words it (spec section 4.1, with the
    masking recipe of section 9)

    A value is wrapped by masking it to 32 bits and sign-extending when bit
    31 of the pattern is set.  The right shift is spelled out on the bit
    pattern: a zero-filling shift of the 32-bit word, with the vacated top
    bits filled with the sign bit. *)

Module Spec.

Definition mask32 (n : Z) : Z := Z.land n (Z.ones 32).

Definition sign_extend32 (u : Z) : Z :=
  if Z.testbit u 31 then u - 2 ^ 32 else u.

Definition wrap32 (n : Z) : Z := sign_extend32 (mask32 n).

Definition shift_left_trunc (s k : Z) : Z := wrap32 (s * 2 ^ k).

Definition arith_shift_right (s k : Z) : Z :=
  let u := mask32 s in
  let fill := if Z.testbit u 31 then Z.shiftl (Z.ones k) (32 - k) else 0 in
  wrap32 (Z.lor (Z.shiftr u k) fill).

Definition logical_shift_right (s k : Z) : Z :=
  wrap32 (Z.shiftr (mask32 s) k).

Definition three_round_mix (seed : Z) : Z :=
  let seed := wrap32 (Z.lxor seed (shift_left_trunc seed 13)) in
  let seed := wrap32 (Z.lxor seed (arith_shift_right seed 17)) in
  let seed := wrap32 (Z.lxor seed (shift_left_trunc seed 5)) in
  wrap32 seed.

(** The variant the specification warns against: step 2 with a
    zero-filling shift. *)
Definition three_round_mix_logical (seed : Z) : Z :=
  let seed := wrap32 (Z.lxor seed (shift_left_trunc seed 13)) in
  let seed := wrap32 (Z.lxor seed (logical_shift_right seed 17)) in
  let seed := wrap32 (Z.lxor seed (shift_left_trunc seed 5)) in
  wrap32 seed.

End Spec.

(** The three rounds of [xorshift32] on a seed already in the 32-bit range,
    with the conversions that change nothing there left out; the proofs go
    through this form ([xorshift32_mix] relates the two). *)
Definition mix (s : Z) : Z :=
  let s1 := Z.lxor s (JS.ToInt32 (s * 2 ^ 13)) in
  let s2 := Z.lxor s1 (Z.shiftr s1 17) in
  Z.lxor s2 (JS.ToInt32 (s2 * 2 ^ 5)).

(** [stepper_iter k s]: the stepper applied [k] times to [s]. *)
Definition stepper_iter (k : nat) (s : Z) : Z := Nat.iter k xorshift32 s.

(** A fixed point of the mixing function. *)
Definition fixed_point (s : Z) : Prop := xorshift32 s = s.

(** ** JavaScript values, errors and the platform

    What the two drivers exchange with the platform: values as [JSON.parse]
    builds them (numbers are the integer-valued ones; an object lists each
    of its own properties once, in property order), the errors that can be
    thrown, HTTP requests and [Response] objects, and console entries. *)

#[local] Unset Elimination Schemes.
Inductive JSValue : Type :=
  | JUndefined
  | JNull
  | JBool (b : bool)
  | JNumber (n : Z)
  | JString (s : string)
  | JArray (items : list JSValue)
  | JObject (fields : list (string * JSValue)).
#[local] Set Elimination Schemes.

Inductive JSError : Type :=
  | NetworkError            (* TypeError of a failed fetch or body transfer *)
  | BodyUsedError           (* TypeError: the body was already read *)
  | JSONSyntaxError         (* SyntaxError of JSON.parse / Response.json *)
  | HttpError (status : Z)  (* new Error(`HTTP error! Status: ${status}`) *)
  | TypeError.              (* property of null, or no primitive value *)

Inductive Result (A : Type) : Type :=
  | OK (a : A)
  | Throw (e : JSError).
Arguments OK {A} a.
Arguments Throw {A} e.

Record Request := mkRequest {
  req_method : string;
  req_url : string;
  req_headers : list (string * string);
  req_body : option string
}.

(** What the remote side does with one request: the transfer fails, or a
    response arrives with a status and a body (whose transfer can still fail
    while it is read: [None]). *)
Inductive FetchResult : Type :=
  | NetFail
  | Resp (status : Z) (body : option string).

(** A [Response] object on the heap; [bodyUsed] is set by the first read of
    the body. *)
Record ResponseObj := mkResponse {
  res_status : Z;
  res_body : option string;
  res_bodyUsed : bool
}.

Inductive TemplatePart : Type :=
  | TText (s : string)
  | TValue (v : JSValue)
  | TJoined (items : list Z) (sep : string).

Inductive LogArg : Type :=
  | LText (s : string)
  | LTemplate (parts : list TemplatePart)
  | LValue (v : JSValue)
  | LError (e : JSError)
  | LPromise (response : nat).

Inductive LogLevel : Type := LevelLog | LevelError.

Record LogEntry := mkLog {
  log_level : LogLevel;
  log_args : list LogArg
}.

Record World := mkWorld {
  remote : nat -> Request -> FetchResult;  (* answer to the n-th request *)
  sent : list Request;                     (* requests issued, oldest first *)
  heap : list ResponseObj;                 (* Response objects, by handle *)
  console : list LogEntry                  (* console output, oldest first *)
}.

(** Computations of the drivers: state passing over the world, with
    exceptions. *)
Definition M (A : Type) : Type := World -> Result A * World.

#[export] Instance M_ret : MRet M := fun A a w => (OK a, w).

#[export] Instance M_bind : MBind M := fun A B f m w =>
  match m w with
  | (OK a, w') => f a w'
  | (Throw e, w') => (Throw e, w')
  end.

Definition throw {A : Type} (e : JSError) : M A := fun w => (Throw e, w).

(** [try { body } catch (error) { handler error }] *)
Definition try_catch {A : Type} (body : M A) (handler : JSError -> M A) : M A :=
  fun w =>
    match body w with
    | (OK a, w') => (OK a, w')
    | (Throw e, w') => handler e w'
    end.

Definition lift_result {A : Type} (r : Result A) : M A := fun w => (r, w).

(** *** Console *)

Definition console_emit (level : LogLevel) (args : list LogArg) : M unit :=
  fun w => (OK tt, mkWorld (remote w) (sent w) (heap w)
                           (console w ++ [mkLog level args])).

Definition console_log : list LogArg -> M unit := console_emit LevelLog.
Definition console_error : list LogArg -> M unit := console_emit LevelError.

(** *** [fetch] and [Response]

    [fetch] records the request and asks the remote side.  A transfer
    failure rejects; any status resolves to a fresh [Response] whose handle
    is its index in the heap. *)

Definition fetch (req : Request) : M nat :=
  fun w =>
    let w1 := mkWorld (remote w) (sent w ++ [req]) (heap w) (console w) in
    match remote w (length (sent w)) req with
    | NetFail => (Throw NetworkError, w1)
    | Resp status body =>
        (OK (length (heap w)),
         mkWorld (remote w) (sent w ++ [req])
                 (heap w ++ [mkResponse status body false]) (console w))
    end.

Definition with_response {A : Type} (h : nat) (k : ResponseObj -> M A) : M A :=
  fun w =>
    match heap w !! h with
    | Some r => k r w
    | None => (Throw TypeError, w)
    end.

(** [response.status] *)
Definition response_status (h : nat) : M Z :=
  with_response h (fun r => mret (res_status r)).

(** [response.ok]: the status is in the range 200-299. *)
Definition response_ok (h : nat) : M bool :=
  with_response h (fun r =>
    mret ((200 <=? res_status r) && (res_status r <=? 299))).

(** Reading the body ([text()], [json()]).  A body can be read once (Fetch
    standard, "consume body": a body already read is disturbed, and reading
    it again rejects with a TypeError); the first read marks it used and
    delivers the text, unless the transfer fails. *)
Definition consume_body (h : nat) : M string :=
  with_response h (fun r w =>
    if res_bodyUsed r then (Throw BodyUsedError, w)
    else
      let w1 := mkWorld (remote w) (sent w)
                  (<[h := mkResponse (res_status r) (res_body r) true]> (heap w))
                  (console w) in
      match res_body r with
      | Some text => (OK text, w1)
      | None => (Throw NetworkError, w1)
      end).

(** [response.text()] that is not awaited: the body is taken, the promise
    is handed on, and its rejection (if any) is not thrown here. *)
Definition response_text_promise (h : nat) : M nat :=
  with_response h (fun r w =>
    (OK h, mkWorld (remote w) (sent w)
             (<[h := mkResponse (res_status r) (res_body r) true]> (heap w))
             (console w))).

(** *** Property access and conversions *)

Fixpoint lookup_field (key : string) (fields : list (string * JSValue))
  : JSValue :=
  match fields with
  | [] => JUndefined
  | (k, v) :: rest => if String.eqb k key then v else lookup_field key rest
  end.

(** [v.key] for the keys the drivers read ([uid], [initialSeed],
    [verificationCode]), none of which is inherited: an own field of an
    object, [undefined] on other values, a TypeError on null and
    undefined. *)
Definition get_property (v : JSValue) (key : string) : Result JSValue :=
  match v with
  | JUndefined | JNull => Throw TypeError
  | JObject fields => OK (lookup_field key fields)
  | _ => OK JUndefined
  end.

(** Whether converting [v] to a primitive throws.  A parsed object whose
    own key [toString] hides the inherited method has no primitive value;
    an array joins its elements, skipping null and undefined ones. *)
Fixpoint to_primitive_throws (v : JSValue) : bool :=
  match v with
  | JArray items =>
      existsb (fun x =>
                 match x with
                 | JUndefined | JNull => false
                 | _ => to_primitive_throws x
                 end) items
  | JObject fields => existsb (fun kv => String.eqb (fst kv) "toString") fields
  | _ => false
  end.

(** [${v}] inside a template literal. *)
Definition template_value (v : JSValue) : M TemplatePart :=
  if to_primitive_throws v then throw TypeError else mret (TValue v).

(** ** The two drivers

    [JSON.parse], [JSON.stringify] and the number a string or an array
    converts to under [| 0] belong to the platform; the drivers are stated
    over any such functions. *)

Section Platform.

Variable JSON_parse : string -> option JSValue.   (* None: SyntaxError *)
Variable JSON_stringify : JSValue -> string.
Variable text_to_int32 : JSValue -> Z.

Definition json_parse (text : string) : M JSValue :=
  match JSON_parse text with
  | Some v => mret v
  | None => throw JSONSyntaxError
  end.

(** [response.json()] *)
Definition response_json (h : nat) : M JSValue :=
  text ← consume_body h; json_parse text.

(** The value [v] handed to [generateSequence] as a number.  The generator
    passes it, untouched, to the first call of [xorshift32], whose first
    statement [seed | 0] is the only thing that looks at it: the conversion
    to a number happens there (and may throw), and only the 32-bit value of
    the number matters.  A string or an array converts through its text,
    which is left to [text_to_int32]; an object without a primitive value
    throws, any other object is not a number and counts as 0. *)
Definition seed_to_number (v : JSValue) : M Z :=
  if to_primitive_throws v then throw TypeError
  else mret match v with
            | JNumber n => n
            | JBool true => 1
            | JUndefined | JNull | JBool false | JObject _ => 0
            | JString _ | JArray _ => text_to_int32 v
            end.

(** *** Script A: [solveChallenge] (solution-script.js, lines 70-148) *)

Definition apiUrl : string :=
  "http://api25.vanierhacks.net/reverse-engineering/xorshift-java/".

Definition json_headers : list (string * string) :=
  [("Content-Type", "application/json")].

Definition submitData (uid : JSValue) (sequence : list Z) : JSValue :=
  JObject [("uid", uid); ("generated", JArray (JNumber <$> sequence))].

(** The statements inside [try { ... }]. *)
Definition solveChallenge_try : M unit :=
  console_log [LText "Fetching initial data..."];;
  response ← fetch (mkRequest "GET" apiUrl [] None);
  ok ← response_ok response;
  (if negb ok
   then status ← response_status response; throw (HttpError status)
   else mret tt);;
  data ← response_json response;
  uid ← lift_result (get_property data "uid");
  t_uid ← template_value uid;
  initialSeed ← lift_result (get_property data "initialSeed");
  t_seed ← template_value initialSeed;
  console_log
    [LTemplate [TText "Received: uid="; t_uid; TText ", initialSeed="; t_seed]];;
  initialSeed ← lift_result (get_property data "initialSeed");
  seed ← seed_to_number initialSeed;
  let sequence := generateSequence seed 128 in
  console_log
    [LTemplate [TText "First few values: "; TJoined (take 5 sequence) ", "]];;
  console_log [LText "Submitting results..."];;
  uid ← lift_result (get_property data "uid");
  submitResponse ←
    fetch (mkRequest "POST" apiUrl json_headers
             (Some (JSON_stringify (submitData uid sequence))));
  responseText ← consume_body submitResponse;
  status ← response_status submitResponse;
  console_log [LTemplate [TText "Response status: "; TValue (JNumber status)]];;
  ok ← response_ok submitResponse;
  if ok : bool
  then
    try_catch
      (result ← json_parse responseText;
       console_log [LText "Success!"; LValue result])
      (fun e => console_log [LText "Success! Raw response:"; LText responseText])
  else
    status ← response_status submitResponse;
    console_error
      [LTemplate [TText "Error "; TValue (JNumber status); TText ": ";
                  TText responseText]].

Definition solveChallenge : M unit :=
  try_catch solveChallenge_try
    (fun error => console_error [LText "Error:"; LError error]).

(** *** Script B: [main] (TestCode/test.js, lines 5-20) *)

Definition apiURL : string := "https://ctf25.vanierhacks.net".

Definition main : M unit :=
  data ← fetch (mkRequest "GET" apiURL [] None);
  logged ← response_json data;
  console_log [LValue logged];;
  again ← response_json data;
  verificationCode ← lift_result (get_property again "verificationCode");
  potentialData ←
    fetch (mkRequest "POST" apiURL json_headers
             (Some (JSON_stringify
                      (JObject [("verificationCode", verificationCode)]))));
  promise ← response_text_promise potentialData;
  console_log [LPromise promise].

(** *** Running a script

    Each file ends by calling its async function and dropping the promise:
    a throw that reaches the function's end is an unhandled rejection. *)

Inductive Outcome : Type :=
  | Completed
  | UnhandledRejection (e : JSError).

Definition run_script (script : M unit) (w : World) : Outcome * World :=
  match script w with
  | (OK _, w') => (Completed, w')
  | (Throw e, w') => (UnhandledRejection e, w')
  end.

Definition script_A : World -> Outcome * World := run_script solveChallenge.
Definition script_B : World -> Outcome * World := run_script main.

End Platform.

(** The world a script starts in: nothing sent, no response, empty
    console. *)
Definition initial_world (remote : nat -> Request -> FetchResult) : World :=
  mkWorld remote [] [] [].

(** The POST requests among the requests sent. *)
Definition posts (w : World) : list Request :=
  filter (fun r => req_method r = "POST") (sent w).

(** ** A sample platform, to run the drivers on examples

    A serializer for the values of the model (compact form; strings are
    assumed to need no escapes), and a parser that knows two payloads. *)

Module Sample.

Definition quoted (s : string) : string :=
  String (Ascii.ascii_of_nat 34) (s +:+ String (Ascii.ascii_of_nat 34) "").

Fixpoint stringify (v : JSValue) : string :=
  match v with
  | JUndefined | JNull => "null"
  | JBool true => "true"
  | JBool false => "false"
  | JNumber n => pretty n
  | JString s => quoted s
  | JArray items => "[" +:+ String.concat "," (map stringify items) +:+ "]"
  | JObject fields =>
      "{" +:+ String.concat ","
                ((fix members (fs : list (string * JSValue)) : list string :=
                    match fs with
                    | [] => []
                    | (_, JUndefined) :: rest => members rest
                    | (k, x) :: rest =>
                        (quoted k +:+ ":" +:+ stringify x) :: members rest
                    end) fields)
          +:+ "}"
  end.

Definition seed_payload : string :=
  "{" +:+ quoted "uid" +:+ ":7," +:+ quoted "initialSeed" +:+ ":1}".
Definition code_payload : string :=
  "{" +:+ quoted "verificationCode" +:+ ":" +:+ quoted "abc" +:+ "}".

Definition parse (text : string) : option JSValue :=
  if String.eqb text seed_payload
  then Some (JObject [("uid", JNumber 7); ("initialSeed", JNumber 1)])
  else if String.eqb text code_payload
  then Some (JObject [("verificationCode", JString "abc")])
  else None.

Definition text_to_int32 (v : JSValue) : Z := 0.

(** A remote side that answers every request with status 200 and the same
    body, and one whose transfers all fail. *)
Definition serving (body : string) : nat -> Request -> FetchResult :=
  fun _ _ => Resp 200 (Some body).

Definition unreachable : nat -> Request -> FetchResult :=
  fun _ _ => NetFail.

End Sample.

(** ** Vocabulary of the statements about the drivers *)

(** The GET request of each script. *)
Definition get_A : Request := mkRequest "GET" apiUrl [] None.
Definition get_B : Request := mkRequest "GET" apiURL [] None.

(** The POST request Script A is to send for a [uid] and a sequence. *)
Definition post_A (JSON_stringify : JSValue -> string)
  (uid : JSValue) (sequence : list Z) : Request :=
  mkRequest "POST" apiUrl [("Content-Type", "application/json")]
    (Some (JSON_stringify
             (JObject [("uid", uid);
                       ("generated", JArray (JNumber <$> sequence))]))).

(** The POST request Script B is to send for a verification code. *)
Definition post_B (JSON_stringify : JSValue -> string) (v : JSValue)
  : Request :=
  mkRequest "POST" apiURL [("Content-Type", "application/json")]
    (Some (JSON_stringify (JObject [("verificationCode", v)]))).

(** The first answer of the remote side is a 2xx response whose body parses
    to a value with the fields [uid] and [initialSeed], the latter a
    number. *)
Definition get_delivers (JSON_parse : string -> option JSValue)
  (remote : nat -> Request -> FetchResult)
  (uid : JSValue) (initialSeed : Z) : Prop :=
  exists status text data,
    remote 0%nat get_A = Resp status (Some text) /\
    200 <= status <= 299 /\
    JSON_parse text = Some data /\
    get_property data "uid" = OK uid /\
    get_property data "initialSeed" = OK (JNumber initialSeed).

(** The entry [console.error("Error:", error)] of Script A's handler. *)
Definition caught_entry (error : JSError) : LogEntry :=
  mkLog LevelError [LText "Error:"; LError error].

(** ** Certificates for the kernel of the stepper

    The three rounds are linear over exclusive-or.  [table_apply k table y]
    is the linear map whose value on bit [k + i] is the [i]-th entry of
    [table]; the two tables below are left inverses, up to the kernel, of
    "step and compare with the seed" and of the step itself.  They are
    checked against [mix] on the 32 one-bit seeds. *)

Fixpoint table_apply (k : Z) (table : list Z) (y : Z) : Z :=
  match table with
  | [] => 0
  | g :: rest =>
      Z.lxor (if Z.testbit y k then g else 0) (table_apply (k + 1) rest y)
  end.

Definition fixed_point_table : list Z :=
  [0; -1273182512; -601535632; -1877323200; -1809292720; 1073741825;
   1548485235; 210027062; 1065304565; 1893237459; -1981693689; -1045855930;
   -1921711179; -1596931965; -1645378697; -2115911417; -777420474;
   -1384840267; -523190141; -1046380282; -1922759883; -1594834557;
   -1649573513; -2124299001; -794195642; -1351281739; -456073085;
   -912146170; -1654291659; -2131639933; -1649442442; -382402140].

Definition collision_table : list Z :=
  [246782678; 0; 584493914; -1112708790; 2069549716; -155867864; 134234114;
   852896606; -1649645246; 995676804; 1991353608; 134758466; 851848158;
   -1651742654; 991481988; 1982963976; 151537730; 818297822; -1718859710;
   857247876; 1714495752; 688474178; -2000419808; 294127680; 588255360;
   1176510720; 1764444242; 142607360; 285214720; 570429440; 1140858880;
   1835747922].

(** The 32 one-bit seeds: 2^0 ... 2^30 and the sign bit. *)
Definition one_bit_seeds : list Z :=
  ((fun i => 2 ^ Z.of_nat i) <$> seq 0 31) ++ [- 2 ^ 31].

(** A function on the integers that commutes with exclusive-or. *)
Definition xor_linear (F : Z -> Z) : Prop :=
  forall a b, F (Z.lxor a b) = Z.lxor (F a) (F b).

(** "Step and compare with the seed": zero exactly on the fixed points. *)
Definition step_diff (x : Z) : Z := Z.lxor (mix x) x.

(** The identity, except that bit [j] also toggles the bits of [p]. *)
Definition toggle (j p x : Z) : Z :=
  Z.lxor x (if Z.testbit x j then p else 0).

(** * Properties *)

(** ** 32-bit arithmetic *)

Lemma pow2_32 : 2 ^ 32 = 4294967296.
Proof. reflexivity. Qed.

Lemma pow2_31 : 2 ^ 31 = 2147483648.
Proof. reflexivity. Qed.

Ltac pow2_consts :=
  rewrite ?pow2_32, ?pow2_31 in *.

Lemma ToInt32_range (n : Z) : int32 (JS.ToInt32 n).
Proof.
  unfold int32, JS.ToInt32.
  pose proof (Z.mod_pos_bound n (2 ^ 32) eq_refl) as Hb.
  pow2_consts. cbv zeta.
  destruct (Z.geb_spec (n mod 4294967296) 2147483648); lia.
Qed.

Lemma ToInt32_id (n : Z) : int32 n -> JS.ToInt32 n = n.
Proof.
  unfold int32, JS.ToInt32. pow2_consts. intros Hn. cbv zeta.
  destruct (Z.geb_spec (n mod 4294967296) 2147483648);
    Z.div_mod_to_equations; lia.
Qed.

Lemma ToInt32_idem (n : Z) : JS.ToInt32 (JS.ToInt32 n) = JS.ToInt32 n.
Proof. apply ToInt32_id, ToInt32_range. Qed.

Lemma is_int32_spec (n : Z) : is_int32 n = true <-> int32 n.
Proof. unfold is_int32, int32. rewrite andb_true_iff. lia. Qed.

(** A number is in the signed range exactly when everything from bit 31
    upwards is the sign: shifting it right by 31 leaves 0 or -1. *)
Lemma int32_shiftr (n : Z) : int32 n <-> Z.shiftr n 31 = 0 \/ Z.shiftr n 31 = -1.
Proof.
  unfold int32. rewrite Z.shiftr_div_pow2 by lia. pow2_consts.
  split; intros H; Z.div_mod_to_equations; lia.
Qed.

Lemma lxor_int32 (a b : Z) : int32 a -> int32 b -> int32 (Z.lxor a b).
Proof.
  rewrite !int32_shiftr, Z.shiftr_lxor.
  intros [-> | ->] [-> | ->]; cbn; auto.
Qed.

Lemma lor_int32 (a b : Z) : int32 a -> int32 b -> int32 (Z.lor a b).
Proof.
  rewrite !int32_shiftr, Z.shiftr_lor.
  intros [-> | ->] [-> | ->]; cbn; auto.
Qed.

Lemma bitor_0 (a : Z) : JS.bitor a 0 = JS.ToInt32 a.
Proof.
  unfold JS.bitor. change (JS.ToInt32 0) with 0.
  rewrite Z.lor_0_r. apply ToInt32_idem.
Qed.

Lemma bitxor_int32 (a b : Z) :
  int32 a -> int32 b -> JS.bitxor a b = Z.lxor a b.
Proof.
  intros Ha Hb. unfold JS.bitxor. rewrite (ToInt32_id a), (ToInt32_id b) by done.
  apply ToInt32_id, lxor_int32; done.
Qed.

Lemma shl_const (a k : Z) :
  int32 a -> 0 <= k < 32 -> JS.shl a k = JS.ToInt32 (a * 2 ^ k).
Proof.
  intros Ha Hk. unfold JS.shl, JS.ToUint32.
  rewrite (ToInt32_id a) by done.
  rewrite Z.mod_small by (pow2_consts; lia).
  change 31 with (Z.ones 5). rewrite Z.land_ones by lia.
  rewrite Z.mod_small by (change (2 ^ 5) with 32; lia).
  rewrite Z.shiftl_mul_pow2 by lia. reflexivity.
Qed.

Lemma shiftr_int32 (a k : Z) : int32 a -> 0 <= k -> int32 (Z.shiftr a k).
Proof.
  unfold int32. intros Ha Hk. rewrite Z.shiftr_div_pow2 by lia.
  pose proof (Z.pow_pos_nonneg 2 k eq_refl Hk) as Hp. pow2_consts.
  Z.div_mod_to_equations. nia.
Qed.

Lemma sar_const (a k : Z) :
  int32 a -> 0 <= k < 32 -> JS.sar a k = Z.shiftr a k.
Proof.
  intros Ha Hk. unfold JS.sar, JS.ToUint32.
  rewrite (ToInt32_id a) by done.
  rewrite Z.mod_small by (pow2_consts; lia).
  change 31 with (Z.ones 5). rewrite Z.land_ones by lia.
  rewrite Z.mod_small by (change (2 ^ 5) with 32; lia).
  apply ToInt32_id, shiftr_int32; [done | lia].
Qed.

(** ** The stepper *)

Lemma xorshift32_mix (seed : Z) : xorshift32 seed = mix (JS.ToInt32 seed).
Proof.
  unfold xorshift32, mix. cbv zeta. rewrite !bitor_0.
  pose proof (ToInt32_range seed) as H0.
  set (s0 := JS.ToInt32 seed) in *.
  rewrite (shl_const s0 13) by (done || lia). rewrite ToInt32_idem.
  rewrite (bitxor_int32 s0) by auto using ToInt32_range.
  assert (H1 : int32 (Z.lxor s0 (JS.ToInt32 (s0 * 2 ^ 13))))
    by auto using lxor_int32, ToInt32_range.
  set (s1 := Z.lxor s0 _) in *.
  rewrite (sar_const s1 17) by (done || lia).
  rewrite (ToInt32_id (Z.shiftr s1 17)) by (apply shiftr_int32; done || lia).
  rewrite (bitxor_int32 s1) by (done || apply shiftr_int32; done || lia).
  assert (H2 : int32 (Z.lxor s1 (Z.shiftr s1 17))).
  { apply lxor_int32; [done | apply shiftr_int32; done || lia]. }
  set (s2 := Z.lxor s1 _) in *.
  rewrite (shl_const s2 5) by (done || lia). rewrite ToInt32_idem.
  rewrite (bitxor_int32 s2) by auto using ToInt32_range.
  apply ToInt32_id, lxor_int32; auto using ToInt32_range.
Qed.

Lemma mix_int32 (s : Z) : int32 s -> int32 (mix s).
Proof.
  intros Hs. unfold mix. cbv zeta.
  repeat first [ apply lxor_int32 | apply ToInt32_range
               | apply shiftr_int32; [| lia] | done ].
Qed.

Lemma xorshift32_int32 (seed : Z) : int32 (xorshift32 seed).
Proof. rewrite xorshift32_mix. apply mix_int32, ToInt32_range. Qed.

(** *** The specification's wording against the operators *)

Lemma mask32_mod (n : Z) : Spec.mask32 n = n mod 2 ^ 32.
Proof. unfold Spec.mask32. apply Z.land_ones. lia. Qed.

Lemma testbit_31_word (u : Z) :
  0 <= u < 2 ^ 32 -> Z.testbit u 31 = (u >=? 2 ^ 31).
Proof.
  intros Hu. rewrite Z.testbit_odd, Z.shiftr_div_pow2 by lia. pow2_consts.
  assert (Hq : u / 2147483648 = 0 \/ u / 2147483648 = 1)
    by (Z.div_mod_to_equations; lia).
  destruct (Z.geb_spec u 2147483648); destruct Hq as [Hq | Hq]; rewrite Hq;
    try reflexivity; Z.div_mod_to_equations; lia.
Qed.

Lemma wrap32_ToInt32 (n : Z) : Spec.wrap32 n = JS.ToInt32 n.
Proof.
  unfold Spec.wrap32, Spec.sign_extend32, JS.ToInt32. rewrite mask32_mod.
  rewrite testbit_31_word by (apply Z.mod_pos_bound; reflexivity).
  reflexivity.
Qed.

(** Bits of a small number and bits of a shifted one do not meet, so their
    inclusive or is their sum. *)
Lemma lor_shiftl_add (a b n : Z) :
  0 <= n -> 0 <= a < 2 ^ n -> Z.lor a (Z.shiftl b n) = a + b * 2 ^ n.
Proof.
  intros Hn Ha.
  assert (Hland : Z.land a (Z.shiftl b n) = 0).
  { apply Z.bits_inj'. intros i Hi. rewrite Z.land_spec, Z.bits_0.
    destruct (Z.lt_ge_cases i n) as [Hlt | Hge].
    - rewrite Z.shiftl_spec_low by done. apply andb_false_r.
    - rewrite <- (Z.mod_small a (2 ^ n)) by done.
      rewrite Z.mod_pow2_bits_high by lia. reflexivity. }
  rewrite <- Z.lxor_lor by done.
  rewrite <- Z.add_nocarry_lxor by done.
  rewrite Z.shiftl_mul_pow2 by done. reflexivity.
Qed.

Lemma arith_shift_right_17 (s : Z) :
  int32 s -> Spec.arith_shift_right s 17 = Z.shiftr s 17.
Proof.
  intros Hs. unfold Spec.arith_shift_right. cbv zeta.
  rewrite wrap32_ToInt32, mask32_mod.
  rewrite testbit_31_word by (apply Z.mod_pos_bound; reflexivity).
  unfold int32 in Hs. pow2_consts.
  destruct (Z.geb_spec (s mod 4294967296) 2147483648) as [Hneg | Hpos].
  - assert (Hm : s mod 4294967296 = s + 4294967296)
      by (Z.div_mod_to_equations; lia).
    rewrite Hm. change (32 - 17) with 15.
    rewrite lor_shiftl_add;
      [| lia | rewrite Z.shiftr_div_pow2 by lia;
               change (2 ^ 17) with 131072; change (2 ^ 15) with 32768;
               Z.div_mod_to_equations; lia ].
    rewrite !Z.shiftr_div_pow2 by lia.
    change (Z.ones 17 * 2 ^ 15) with 4294934528.
    change (2 ^ 17) with 131072.
    replace ((s + 4294967296) / 131072 + 4294934528)
      with (s / 131072 + 1 * 4294967296)
      by (Z.div_mod_to_equations; lia).
    unfold JS.ToInt32. pow2_consts. cbv zeta.
    rewrite Z.mod_add by lia.
    destruct (Z.geb_spec ((s / 131072) mod 4294967296) 2147483648);
      Z.div_mod_to_equations; lia.
  - assert (Hm : s mod 4294967296 = s) by (Z.div_mod_to_equations; lia).
    rewrite Hm, Z.lor_0_r.
    apply ToInt32_id, shiftr_int32; [unfold int32; pow2_consts; lia | lia].
Qed.

Lemma three_round_mix_mix (s : Z) : int32 s -> Spec.three_round_mix s = mix s.
Proof.
  intros Hs. unfold Spec.three_round_mix, Spec.shift_left_trunc, mix.
  cbv zeta. rewrite !wrap32_ToInt32.
  assert (H1 : int32 (Z.lxor s (JS.ToInt32 (s * 2 ^ 13))))
    by auto using lxor_int32, ToInt32_range.
  rewrite (ToInt32_id (Z.lxor s _)) by done.
  set (s1 := Z.lxor s _) in *.
  rewrite arith_shift_right_17 by done.
  assert (H2 : int32 (Z.lxor s1 (Z.shiftr s1 17))).
  { apply lxor_int32; [done | apply shiftr_int32; done || lia]. }
  rewrite (ToInt32_id (Z.lxor s1 _)) by done.
  set (s2 := Z.lxor s1 _) in *.
  rewrite ToInt32_idem.
  apply ToInt32_id, lxor_int32; auto using ToInt32_range.
Qed.

(** C1. For every 32-bit signed seed, [xorshift32] returns what the
    specification's three-round mix returns: exclusive-or with the left
    shift by 13 truncated to 32 bits, then with the sign-extending right
    shift by 17, then with the left shift by 5 truncated to 32 bits, every
    intermediate and the result wrapped to the 32-bit two's-complement
    range. *)
Theorem xorshift32_three_round_mix (seed : Z) :
  int32 seed -> xorshift32 seed = Spec.three_round_mix seed.
Proof.
  intros Hs. rewrite xorshift32_mix, three_round_mix_mix by done.
  rewrite ToInt32_id by done. reflexivity.
Qed.

Lemma xorshift32_three_round_mix_witness :
  int32 (-2147483648) /\
  xorshift32 (-2147483648) = Spec.three_round_mix (-2147483648).
Proof.
  split; [unfold int32; lia |].
  apply (xorshift32_three_round_mix (-2147483648)). unfold int32. lia.
Defined.

(** The concrete vector of the specification: from seed 1 the stepper and
    the three-round mix both give 270369, and the generator starts with
    it. *)
Example seed_1_vector :
  xorshift32 1 = 270369 /\ Spec.three_round_mix 1 = 270369 /\
  generateSequence 1 3 = [270369; 67601921; 1815334946].
Proof. vm_compute. repeat split. Qed.

(** The shift kind matters: with a zero-filling shift in step 2 the mix
    gives another value on the negative seed -2^31. *)
Example logical_shift_differs :
  xorshift32 (-2147483648) = -2146975744 /\
  Spec.three_round_mix_logical (-2147483648) = -2146942976.
Proof. split; reflexivity. Qed.

(** C8. [xorshift32] is total on the 32-bit signed integers: every such
    seed has a result, and the result is in [-2^31, 2^31 - 1]. *)
Theorem xorshift32_total_in_range (seed : Z) :
  int32 seed ->
  exists next, xorshift32 seed = next /\ - 2 ^ 31 <= next <= 2 ^ 31 - 1.
Proof.
  intros _. exists (xorshift32 seed). split; [reflexivity |].
  pose proof (xorshift32_int32 seed) as H. unfold int32 in H. lia.
Qed.

Lemma xorshift32_total_in_range_witness :
  int32 2147483647 /\
  exists next, xorshift32 2147483647 = next /\ - 2 ^ 31 <= next <= 2 ^ 31 - 1.
Proof.
  split; [unfold int32; lia |].
  apply (xorshift32_total_in_range 2147483647). unfold int32. lia.
Defined.

(** C9. The stepper is not idempotent in general: for a 32-bit seed [s],
    stepping [xorshift32 s] once more changes it unless [xorshift32 s] is a
    fixed point of the mix, and some seed does change (seed 1). *)
Theorem xorshift32_not_idempotent (s : Z) :
  int32 s ->
  (~ fixed_point (xorshift32 s) -> xorshift32 (xorshift32 s) <> xorshift32 s) /\
  (xorshift32 (xorshift32 s) = xorshift32 s -> fixed_point (xorshift32 s)) /\
  (exists t, int32 t /\ xorshift32 (xorshift32 t) <> xorshift32 t).
Proof.
  intros _. unfold fixed_point. repeat split; auto.
  exists 1. split; [unfold int32; lia |].
  vm_compute. discriminate.
Qed.

Lemma xorshift32_not_idempotent_witness :
  int32 1 /\ xorshift32 (xorshift32 1) <> xorshift32 1.
Proof.
  split; [unfold int32; lia |].
  refine (proj1 (xorshift32_not_idempotent 1 _) _).
  - unfold int32. lia.
  - unfold fixed_point. vm_compute. discriminate.
Defined.

(** ** The sequence generator *)

(* The stepper is kept folded in what follows: its body, unfolded on a
   variable, is large. *)
#[local] Opaque xorshift32.

Lemma loop_continue (count i currentSeed : Z) (acc : list Z) :
  i < count ->
  generateSequence_loop count i currentSeed acc =
  generateSequence_loop count (i + 1) (xorshift32 currentSeed)
    (acc ++ [xorshift32 currentSeed]).
Proof.
  intros Hlt. rewrite generateSequence_loop_equation_1.
  destruct (Z_lt_dec i count) as [Hi | Hi]; [| lia].
  apply generateSequence_loop_clause_1_equation_1.
Qed.

Lemma loop_exit (count i currentSeed : Z) (acc : list Z) :
  ~ i < count -> generateSequence_loop count i currentSeed acc = acc.
Proof.
  intros Hge. rewrite generateSequence_loop_equation_1.
  destruct (Z_lt_dec i count) as [Hi | Hi]; [lia | reflexivity].
Qed.

(** The loop appends, to what it was given, the iterates of the stepper on
    its current seed, one per remaining round. *)
Lemma loop_iterates (n : nat) :
  forall (count i currentSeed : Z) (acc : list Z),
    Z.to_nat (count - i) = n ->
    generateSequence_loop count i currentSeed acc =
    acc ++ ((fun k => stepper_iter (S k) currentSeed) <$> seq 0 n).
Proof.
  induction n as [| n IH]; intros count i currentSeed acc Hn.
  - rewrite loop_exit by lia. cbn. rewrite app_nil_r. reflexivity.
  - rewrite loop_continue by lia.
    rewrite (IH count (i + 1) (xorshift32 currentSeed)) by lia.
    rewrite <- app_assoc. f_equal.
    change (seq 0 (S n)) with (0%nat :: seq 1 n).
    rewrite fmap_cons, <- fmap_S_seq, <- list_fmap_compose.
    cbn [app]. change (stepper_iter 1 currentSeed) with (xorshift32 currentSeed).
    apply (f_equal (cons (xorshift32 currentSeed))).
    apply list_fmap_ext. intros j k _. unfold stepper_iter, compose.
    rewrite (Nat.iter_succ_r (S k)). reflexivity.
Qed.

Lemma generateSequence_iterates (initialSeed count : Z) :
  generateSequence initialSeed count =
  (fun k => stepper_iter (S k) initialSeed) <$> seq 0 (Z.to_nat count).
Proof.
  unfold generateSequence.
  rewrite (loop_iterates (Z.to_nat count)) by (f_equal; lia).
  reflexivity.
Qed.

Lemma generateSequence_lookup (s count : Z) (k : nat) :
  (k < Z.to_nat count)%nat ->
  generateSequence s count !! k = Some (stepper_iter (S k) s).
Proof.
  intros Hk. rewrite generateSequence_iterates, list_lookup_fmap.
  rewrite lookup_seq_lt by done. reflexivity.
Qed.

Lemma generateSequence_length (s count : Z) :
  length (generateSequence s count) = Z.to_nat count.
Proof. rewrite generateSequence_iterates, length_fmap, length_seq. done. Qed.

Lemma stepper_iter_fixed (s : Z) (k : nat) :
  fixed_point s -> stepper_iter k s = s.
Proof.
  intros Hs. induction k as [| k IH]; [reflexivity |].
  unfold stepper_iter in *. rewrite Nat.iter_succ, IH. exact Hs.
Qed.

(** Runs of the loop, as a transition system, end in what the function
    computes. *)
Lemma loop_run_computes (count : Z) (st : LoopState) (out : list Z) :
  loop_run count st out ->
  out = generateSequence_loop count (ls_i st) (ls_currentSeed st)
          (ls_sequence st).
Proof.
  induction 1 as [st Hge | st st' out Hstep Hrun IH].
  - rewrite loop_exit by done. reflexivity.
  - destruct Hstep as [st Hlt]. rewrite loop_continue by done. exact IH.
Qed.

Lemma loop_run_exists (n : nat) :
  forall (count : Z) (st : LoopState),
    Z.to_nat (count - ls_i st) = n ->
    loop_run count st
      (generateSequence_loop count (ls_i st) (ls_currentSeed st)
         (ls_sequence st)).
Proof.
  induction n as [| n IH]; intros count st Hn.
  - rewrite loop_exit by lia. apply run_return. lia.
  - rewrite loop_continue by lia.
    apply (run_iterate count st (loop_body st)).
    + apply loop_iterate. lia.
    + apply (IH count (loop_body st)). cbn [loop_body ls_i]. lia.
Qed.

Lemma generateSequence_generates (s count : Z) :
  generates s count (generateSequence s count).
Proof.
  unfold generates, generateSequence.
  apply (loop_run_exists (Z.to_nat count) count (mkLoop 0 s [])).
  cbn [ls_i]. f_equal. lia.
Qed.

(** C2. Element [i] of [generateSequence s n] is the stepper applied
    [i + 1] times to [s]: the output is the orbit of [s] under the stepper
    with its head, the seed itself, left out.  Equivalently element 0 is
    [xorshift32 s] and each later element is the stepper applied to the
    element before it. *)
Theorem generateSequence_elements (s n : Z) :
  0 <= n ->
  (forall i, 0 <= i < n ->
     generateSequence s n !! Z.to_nat i
     = Some (stepper_iter (Z.to_nat (i + 1)) s)) /\
  s :: generateSequence s n
  = (fun k => stepper_iter k s) <$> seq 0 (S (Z.to_nat n)) /\
  (0 < n -> generateSequence s n !! 0%nat = Some (xorshift32 s)) /\
  (forall k, 0 < k < n ->
     exists prev,
       generateSequence s n !! Z.to_nat (k - 1) = Some prev /\
       generateSequence s n !! Z.to_nat k = Some (xorshift32 prev)).
Proof.
  intros Hn. split; [| split; [| split]].
  - intros i Hi. rewrite generateSequence_lookup by lia.
    f_equal. f_equal. lia.
  - rewrite generateSequence_iterates.
    change (seq 0 (S (Z.to_nat n))) with (0%nat :: seq 1 (Z.to_nat n)).
    rewrite fmap_cons, <- fmap_S_seq, <- list_fmap_compose. reflexivity.
  - intros Hpos. rewrite generateSequence_lookup by lia. reflexivity.
  - intros k Hk. exists (stepper_iter (Z.to_nat k) s). split.
    + rewrite generateSequence_lookup by lia. f_equal. f_equal. lia.
    + rewrite generateSequence_lookup by lia. reflexivity.
Qed.

Lemma generateSequence_elements_witness :
  0 <= 3 /\
  generateSequence 1 3 !! Z.to_nat 2 = Some (stepper_iter (Z.to_nat (2 + 1)) 1).
Proof.
  split; [lia |].
  apply (proj1 (generateSequence_elements 1 3 ltac:(lia)) 2). lia.
Defined.

(** C6. The generator is deterministic: two runs from the same seed and
    the same count return the same sequence (the one the function
    computes). *)
Theorem generateSequence_deterministic (s n : Z) (out1 out2 : list Z) :
  generates s n out1 -> generates s n out2 ->
  out1 = out2 /\ out1 = generateSequence s n.
Proof.
  unfold generates, generateSequence. intros H1 H2.
  apply loop_run_computes in H1, H2. cbn [ls_i ls_currentSeed ls_sequence] in *.
  split; congruence.
Qed.

Lemma generateSequence_deterministic_witness :
  [270369; 67601921] = [270369; 67601921] /\
  [270369; 67601921] = generateSequence 1 2.
Proof.
  assert (E : generateSequence 1 2 = [270369; 67601921])
    by (vm_compute; reflexivity).
  pose proof (generateSequence_generates 1 2) as G. rewrite E in G.
  exact (generateSequence_deterministic 1 2 _ _ G G).
Defined.

(** C7. With count 0 the generator returns the empty list, and with a
    non-negative count [n] it returns exactly [n] elements. *)
Theorem generateSequence_count (s n : Z) :
  generateSequence s 0 = [] /\
  (0 <= n -> Z.of_nat (length (generateSequence s n)) = n).
Proof.
  split.
  - rewrite generateSequence_iterates. reflexivity.
  - intros Hn. rewrite generateSequence_length. lia.
Qed.

Lemma generateSequence_count_witness :
  0 <= 128 /\ Z.of_nat (length (generateSequence 5 128)) = 128.
Proof.
  split; [lia |]. apply (proj2 (generateSequence_count 5 128)). lia.
Defined.

(** C10. Zero is a fixed point of the stepper, so from seed 0 the
    generator returns [n] zeros for every non-negative [n]: the mix does
    have a fixed point that the public interface reaches. *)
Theorem zero_fixed_point (n : Z) :
  0 <= n ->
  xorshift32 0 = 0 /\
  fixed_point 0 /\
  generateSequence 0 n = replicate (Z.to_nat n) 0 /\
  Z.of_nat (length (generateSequence 0 n)) = n.
Proof.
  intros Hn.
  assert (H0 : xorshift32 0 = 0) by (vm_compute; reflexivity).
  repeat split; try exact H0.
  - rewrite generateSequence_iterates.
    generalize 0%nat as start.
    induction (Z.to_nat n) as [| m IH]; intros start; [reflexivity |].
    cbn [seq fmap list_fmap replicate]. f_equal; [| apply IH].
    apply stepper_iter_fixed. exact H0.
  - rewrite generateSequence_length. lia.
Qed.

Lemma zero_fixed_point_witness :
  0 <= 4 /\ generateSequence 0 4 = replicate (Z.to_nat 4) 0.
Proof.
  split; [lia |].
  apply (proj1 (proj2 (proj2 (zero_fixed_point 4 ltac:(lia))))).
Defined.

(** ** The drivers *)

(* The generator stays folded while the drivers are run symbolically. *)
#[local] Opaque generateSequence.

Ltac run_ops :=
  unfold script_A, script_B, run_script, solveChallenge, solveChallenge_try,
    main, try_catch, response_json, json_parse, seed_to_number,
    template_value, console_log, console_error, console_emit, fetch,
    response_ok, response_status, response_text_promise, consume_body,
    with_response, lift_result, throw, initial_world, json_headers,
    submitData,
    mbind, mret, M_bind, M_ret in *.

Lemma ok_status_true (status : Z) :
  200 <= status <= 299 -> (200 <=? status) && (status <=? 299) = true.
Proof. intros H. apply andb_true_iff. lia. Qed.

Lemma ok_status_false (status : Z) :
  ~ 200 <= status <= 299 -> (200 <=? status) && (status <=? 299) = false.
Proof. intros H. apply andb_false_iff. lia. Qed.

Lemma posts_get_post (w : World) (g p : Request) :
  sent w = [g; p] -> req_method g = "GET" -> req_method p = "POST" ->
  posts w = [p].
Proof.
  intros Hs Hg Hp. unfold posts. rewrite Hs.
  rewrite filter_cons_False by (rewrite Hg; discriminate).
  rewrite filter_cons_True by done. reflexivity.
Qed.

Lemma posts_get (w : World) (g : Request) :
  sent w = [g] -> req_method g = "GET" -> posts w = [].
Proof.
  intros Hs Hg. unfold posts. rewrite Hs.
  rewrite filter_cons_False by (rewrite Hg; discriminate). reflexivity.
Qed.

Section Drivers.

Variable JSON_parse : string -> option JSValue.
Variable JSON_stringify : JSValue -> string.
Variable text_to_int32 : JSValue -> Z.

Local Abbreviation runA := (script_A JSON_parse JSON_stringify text_to_int32).
Local Abbreviation runB := (script_B JSON_parse JSON_stringify).
Local Abbreviation tryA :=
  (solveChallenge_try JSON_parse JSON_stringify text_to_int32).

(** The state Script A is in when it is about to send its POST. *)
Ltac run_get_phase Hd :=
  destruct Hd as (status & text & data & Hget & Hst & Hparse & Huid & Hseed);
  unfold get_A, post_A in *; run_ops; cbn;
  rewrite Hget; cbn; rewrite (ok_status_true status Hst); cbn;
  rewrite Hparse; cbn; rewrite Huid; cbn.

Lemma script_A_sent (remote : nat -> Request -> FetchResult)
  (uid : JSValue) (initialSeed : Z) :
  get_delivers JSON_parse remote uid initialSeed ->
  sent (snd (runA (initial_world remote))) =
  if to_primitive_throws uid then [get_A]
  else [get_A; post_A JSON_stringify uid (generateSequence initialSeed 128)].
Proof.
  intros Hd. run_get_phase Hd.
  destruct (to_primitive_throws uid); cbn; [reflexivity |].
  rewrite Hseed. cbn.
  destruct (remote 1%nat _) as [| status2 [text2 |]]; cbn; try reflexivity.
  destruct ((200 <=? status2) && (status2 <=? 299)); cbn; try reflexivity.
  destruct (JSON_parse text2); cbn; reflexivity.
Qed.

Lemma script_A_completes (w : World) : fst (runA w) = Completed.
Proof.
  unfold script_A, run_script, solveChallenge, try_catch.
  destruct (tryA w) as [[[] | e] w']; reflexivity.
Qed.

Lemma script_A_logs_caught (w w1 : World) (e : JSError) :
  tryA w = (Throw e, w1) ->
  runA w =
  (Completed,
   mkWorld (remote w1) (sent w1) (heap w1) (console w1 ++ [caught_entry e])).
Proof.
  intros Hthrow. unfold script_A, run_script, solveChallenge, try_catch.
  rewrite Hthrow. reflexivity.
Qed.


(** What Script A leaves on the console for each kind of failure of the
    GET. *)
Lemma script_A_get_failures (remote : nat -> Request -> FetchResult) :
  (remote 0%nat get_A = NetFail ->
   last (console (snd (runA (initial_world remote))))
   = Some (caught_entry NetworkError)) /\
  (forall status body,
     remote 0%nat get_A = Resp status body -> ~ 200 <= status <= 299 ->
     last (console (snd (runA (initial_world remote))))
     = Some (caught_entry (HttpError status))) /\
  (forall status,
     remote 0%nat get_A = Resp status None -> 200 <= status <= 299 ->
     last (console (snd (runA (initial_world remote))))
     = Some (caught_entry NetworkError)) /\
  (forall status text,
     remote 0%nat get_A = Resp status (Some text) -> 200 <= status <= 299 ->
     JSON_parse text = None ->
     last (console (snd (runA (initial_world remote))))
     = Some (caught_entry JSONSyntaxError)).
Proof.
  unfold get_A. repeat split.
  - intros Hget. run_ops. cbn. rewrite Hget. reflexivity.
  - intros status body Hget Hst. run_ops. cbn. rewrite Hget. cbn.
    rewrite (ok_status_false status Hst). reflexivity.
  - intros status Hget Hst. run_ops. cbn. rewrite Hget. cbn.
    rewrite (ok_status_true status Hst). reflexivity.
  - intros status text Hget Hst Hparse. run_ops. cbn. rewrite Hget. cbn.
    rewrite (ok_status_true status Hst). cbn. rewrite Hparse. reflexivity.
Qed.

(** What Script A leaves on the console for each kind of failure of the
    POST, once the GET has delivered a seed. *)
Lemma script_A_post_failures (remote : nat -> Request -> FetchResult)
  (uid : JSValue) (initialSeed : Z) :
  get_delivers JSON_parse remote uid initialSeed ->
  to_primitive_throws uid = false ->
  let post := post_A JSON_stringify uid (generateSequence initialSeed 128) in
  let final := snd (runA (initial_world remote)) in
  (remote 1%nat post = NetFail ->
   last (console final) = Some (caught_entry NetworkError)) /\
  (forall status, remote 1%nat post = Resp status None ->
   last (console final) = Some (caught_entry NetworkError)) /\
  (forall status text,
     remote 1%nat post = Resp status (Some text) -> ~ 200 <= status <= 299 ->
     last (console final)
     = Some (mkLog LevelError
               [LTemplate [TText "Error "; TValue (JNumber status);
                           TText ": "; TText text]])) /\
  (forall status text,
     remote 1%nat post = Resp status (Some text) -> 200 <= status <= 299 ->
     JSON_parse text = None ->
     last (console final)
     = Some (mkLog LevelLog [LText "Success! Raw response:"; LText text])).
Proof.
  intros Hd Hprint post final. subst post final.
  run_get_phase Hd. rewrite Hprint. cbn. rewrite Hseed. cbn.
  repeat split.
  - intros Hpost. rewrite Hpost. reflexivity.
  - intros status2 Hpost. rewrite Hpost. reflexivity.
  - intros status2 text2 Hpost Hst2. rewrite Hpost. cbn.
    rewrite (ok_status_false status2 Hst2). reflexivity.
  - intros status2 text2 Hpost Hst2 Hparse2. rewrite Hpost. cbn.
    rewrite (ok_status_true status2 Hst2). cbn. rewrite Hparse2. reflexivity.
Qed.

(** Script B has no handler: what [main] throws ends the script. *)
Lemma script_B_propagates (w w1 : World) (e : JSError) :
  main JSON_parse JSON_stringify w = (Throw e, w1) ->
  runB w = (UnhandledRejection e, w1).
Proof.
  intros Hthrow. unfold script_B, run_script. rewrite Hthrow. reflexivity.
Qed.

Lemma script_B_get_failures (remote : nat -> Request -> FetchResult) :
  (remote 0%nat get_B = NetFail ->
   runB (initial_world remote)
   = (UnhandledRejection NetworkError, mkWorld remote [get_B] [] [])) /\
  (forall status text,
     remote 0%nat get_B = Resp status (Some text) -> JSON_parse text = None ->
     fst (runB (initial_world remote)) = UnhandledRejection JSONSyntaxError /\
     console (snd (runB (initial_world remote))) = []).
Proof.
  unfold get_B. split.
  - intros Hget. run_ops. cbn. rewrite Hget. reflexivity.
  - intros status text Hget Hparse. run_ops. cbn. rewrite Hget. cbn.
    rewrite Hparse. split; reflexivity.
Qed.

(** The second [data.json()] of Script B finds the body already read:
    [main] stops there, before its POST, whatever the remote side
    answers. *)
Lemma script_B_sent (remote : nat -> Request -> FetchResult) :
  sent (snd (runB (initial_world remote))) = [get_B] /\
  fst (runB (initial_world remote)) <> Completed.
Proof.
  unfold get_B. run_ops. cbn.
  destruct (remote 0%nat _) as [| status [text |]]; cbn; [done | | done].
  destruct (JSON_parse text); cbn; done.
Qed.

End Drivers.

(** C3. When the GET response delivers [uid] and [initialSeed], the only
    POST Script A can send carries the JSON text of
    [{ uid, generated }] where [generated] is the array of the 128 numbers
    of [generateSequence initialSeed 128], in that order; and it does send
    it once [uid] can be printed in the log line that precedes. *)
Theorem solveChallenge_submits_generated
  (JSON_parse : string -> option JSValue) (JSON_stringify : JSValue -> string)
  (text_to_int32 : JSValue -> Z) (remote : nat -> Request -> FetchResult)
  (uid : JSValue) (initialSeed : Z) :
  get_delivers JSON_parse remote uid initialSeed ->
  let sequence := generateSequence initialSeed 128 in
  let final :=
    snd (script_A JSON_parse JSON_stringify text_to_int32
           (initial_world remote)) in
  (forall r, r ∈ posts final -> r = post_A JSON_stringify uid sequence) /\
  (to_primitive_throws uid = false ->
   posts final = [post_A JSON_stringify uid sequence]) /\
  length sequence = 128%nat.
Proof.
  intros Hd sequence final.
  pose proof (script_A_sent JSON_parse JSON_stringify text_to_int32
                remote uid initialSeed Hd) as Hsent.
  fold final sequence in Hsent.
  assert (Hposts : posts final =
                   if to_primitive_throws uid then []
                   else [post_A JSON_stringify uid sequence]).
  { destruct (to_primitive_throws uid).
    - apply (posts_get final get_A); done.
    - apply (posts_get_post final get_A); done. }
  split; [| split].
  - intros r Hr. rewrite Hposts in Hr.
    destruct (to_primitive_throws uid).
    + apply elem_of_nil in Hr. contradiction.
    + apply list_elem_of_singleton in Hr. exact Hr.
  - intros Hprint. rewrite Hposts, Hprint. reflexivity.
  - unfold sequence. rewrite generateSequence_length. reflexivity.
Qed.

Lemma sample_get_delivers :
  get_delivers Sample.parse (Sample.serving Sample.seed_payload) (JNumber 7) 1.
Proof.
  exists 200, Sample.seed_payload,
    (JObject [("uid", JNumber 7); ("initialSeed", JNumber 1)]).
  repeat split; try reflexivity; lia.
Defined.

Lemma solveChallenge_submits_generated_witness :
  posts (snd (script_A Sample.parse Sample.stringify Sample.text_to_int32
                (initial_world (Sample.serving Sample.seed_payload))))
  = [post_A Sample.stringify (JNumber 7) (generateSequence 1 128)].
Proof.
  apply (solveChallenge_submits_generated Sample.parse Sample.stringify
           Sample.text_to_int32 (Sample.serving Sample.seed_payload)
           (JNumber 7) 1 sample_get_delivers).
  reflexivity.
Defined.

(** C4, as the specification states it, fails on Script B: with the remote
    side unreachable, [main] ends in an unhandled rejection and nothing is
    logged. *)
Lemma script_B_unhandled_rejection :
  script_B Sample.parse Sample.stringify (initial_world Sample.unreachable)
  = (UnhandledRejection NetworkError,
     mkWorld Sample.unreachable [get_B] [] []).
Proof. vm_compute. reflexivity. Qed.

(** C4, amended. Script A never ends in an uncaught exception or
    rejection: whatever is thrown inside its [try] is logged by the handler
    and swallowed.  That covers a failed transfer, a non-2xx status of the
    GET and a GET body that does not parse; a non-2xx status of the POST
    and a POST response that does not parse are logged in place.  Script B
    has no handler: a failed transfer or a GET body that does not parse
    ends it in an unhandled rejection, with nothing logged. *)
Theorem script_A_swallows_script_B_propagates
  (JSON_parse : string -> option JSValue) (JSON_stringify : JSValue -> string)
  (text_to_int32 : JSValue -> Z) (remote : nat -> Request -> FetchResult) :
  let runA := script_A JSON_parse JSON_stringify text_to_int32 in
  let runB := script_B JSON_parse JSON_stringify in
  let endA := snd (runA (initial_world remote)) in
  (forall w, fst (runA w) = Completed) /\
  (forall w w1 e,
     solveChallenge_try JSON_parse JSON_stringify text_to_int32 w
     = (Throw e, w1) ->
     console (snd (runA w)) = console w1 ++ [caught_entry e]) /\
  (remote 0%nat get_A = NetFail ->
   last (console endA) = Some (caught_entry NetworkError)) /\
  (forall status body,
     remote 0%nat get_A = Resp status body -> ~ 200 <= status <= 299 ->
     last (console endA) = Some (caught_entry (HttpError status))) /\
  (forall status text,
     remote 0%nat get_A = Resp status (Some text) -> 200 <= status <= 299 ->
     JSON_parse text = None ->
     last (console endA) = Some (caught_entry JSONSyntaxError)) /\
  (forall uid initialSeed,
     get_delivers JSON_parse remote uid initialSeed ->
     to_primitive_throws uid = false ->
     let post := post_A JSON_stringify uid (generateSequence initialSeed 128) in
     (remote 1%nat post = NetFail ->
      last (console endA) = Some (caught_entry NetworkError)) /\
     (forall status text,
        remote 1%nat post = Resp status (Some text) ->
        ~ 200 <= status <= 299 ->
        last (console endA)
        = Some (mkLog LevelError
                  [LTemplate [TText "Error "; TValue (JNumber status);
                              TText ": "; TText text]])) /\
     (forall status text,
        remote 1%nat post = Resp status (Some text) ->
        200 <= status <= 299 -> JSON_parse text = None ->
        last (console endA)
        = Some (mkLog LevelLog
                  [LText "Success! Raw response:"; LText text]))) /\
  (remote 0%nat get_B = NetFail ->
   runB (initial_world remote)
   = (UnhandledRejection NetworkError, mkWorld remote [get_B] [] [])) /\
  (forall status text,
     remote 0%nat get_B = Resp status (Some text) -> JSON_parse text = None ->
     fst (runB (initial_world remote)) = UnhandledRejection JSONSyntaxError /\
     console (snd (runB (initial_world remote))) = []).
Proof.
  intros runA runB endA. subst runA runB endA.
  pose proof (script_A_get_failures JSON_parse JSON_stringify text_to_int32
                remote) as (Hnet & Hstatus & _ & Hparse).
  pose proof (script_B_get_failures JSON_parse JSON_stringify remote)
    as (HnetB & HparseB).
  repeat apply conj; try assumption.
  - apply script_A_completes.
  - intros w w1 e Hthrow.
    rewrite (script_A_logs_caught JSON_parse JSON_stringify text_to_int32
               w w1 e Hthrow).
    reflexivity.
  - intros uid initialSeed Hd Hprint post.
    pose proof (script_A_post_failures JSON_parse JSON_stringify
                  text_to_int32 remote uid initialSeed Hd Hprint)
      as (Hnet2 & _ & Hstatus2 & Hparse2).
    repeat apply conj; assumption.
Qed.

Lemma script_A_swallows_script_B_propagates_witness :
  Sample.unreachable 0%nat get_A = NetFail /\
  last (console (snd (script_A Sample.parse Sample.stringify
                        Sample.text_to_int32
                        (initial_world Sample.unreachable))))
  = Some (caught_entry NetworkError).
Proof.
  split; [reflexivity |].
  apply (proj1 (proj2 (proj2
           (script_A_swallows_script_B_propagates Sample.parse
              Sample.stringify Sample.text_to_int32 Sample.unreachable)))).
  reflexivity.
Defined.

(** Script B never sends its POST: the run ends at the second read of the
    GET body at the latest. *)
Lemma main_never_posts
  (JSON_parse : string -> option JSValue) (JSON_stringify : JSValue -> string)
  (remote : nat -> Request -> FetchResult) :
  posts (snd (script_B JSON_parse JSON_stringify (initial_world remote))) = [].
Proof.
  apply (posts_get _ get_B); [| reflexivity].
  apply script_B_sent.
Qed.

(** C5, on the code. The GET answers 200 with a body whose field
    [verificationCode] is ["abc"]: [main] logs the parsed body, then its
    second [data.json()] rejects because the body was already read; the
    POST with [{ verificationCode: "abc" }] is never sent. *)
Theorem main_second_read_rejects :
  let final :=
    script_B Sample.parse Sample.stringify
      (initial_world (Sample.serving Sample.code_payload)) in
  Sample.parse Sample.code_payload
  = Some (JObject [("verificationCode", JString "abc")]) /\
  fst final = UnhandledRejection BodyUsedError /\
  sent (snd final) = [get_B] /\
  (post_B Sample.stringify (JString "abc") ∉ sent (snd final)) /\
  console (snd final)
  = [mkLog LevelLog
       [LValue (JObject [("verificationCode", JString "abc")])]].
Proof.
  vm_compute. repeat split.
  intros H. apply list_elem_of_singleton in H. discriminate H.
Qed.

(** * Further properties *)

(** ** The stepper and the generator beyond the 32-bit range *)


Lemma ToInt32_mod (n : Z) : JS.ToInt32 n mod 2 ^ 32 = n mod 2 ^ 32.
Proof.
  unfold JS.ToInt32. cbv zeta.
  pose proof (Z.mod_pos_bound n (2 ^ 32) eq_refl) as Hb. pow2_consts.
  destruct (Z.geb_spec (n mod 4294967296) 2147483648).
  - replace (n mod 4294967296 - 4294967296)
      with (n mod 4294967296 + (-1) * 4294967296) by lia.
    rewrite Z.mod_add by discriminate. apply Z.mod_mod. discriminate.
  - apply Z.mod_mod. discriminate.
Qed.

Lemma int32_mod_inj (u v : Z) :
  int32 u -> int32 v -> u mod 2 ^ 32 = v mod 2 ^ 32 -> u = v.
Proof.
  unfold int32. pow2_consts. intros Hu Hv E.
  Z.div_mod_to_equations. lia.
Qed.

(** Sequences started from seeds with the same first step are equal. *)
Lemma generateSequence_same_step (s t n : Z) :
  xorshift32 s = xorshift32 t -> generateSequence s n = generateSequence t n.
Proof.
  intros E. rewrite !generateSequence_iterates.
  apply list_fmap_ext. intros j k _. unfold stepper_iter.
  rewrite !Nat.iter_succ_r, E. reflexivity.
Qed.


Lemma generateSequence_int32 (s n : Z) : Forall int32 (generateSequence s n).
Proof.
  rewrite generateSequence_iterates. apply Forall_fmap, Forall_forall.
  intros k _. cbn [compose]. unfold stepper_iter. rewrite Nat.iter_succ.
  apply xorshift32_int32.
Qed.

(** X2. Whatever integers the seed and the count are, every element of
    the generated sequence is a 32-bit signed integer, the first one
    included even when the seed is not. *)
Theorem generateSequence_all_int32 (s n : Z) (k : nat) (x : Z) :
  generateSequence s n !! k = Some x -> - 2 ^ 31 <= x <= 2 ^ 31 - 1.
Proof.
  intros Hk.
  pose proof (proj1 (Forall_lookup _ _) (generateSequence_int32 s n) k x Hk)
    as Hx.
  unfold int32 in Hx. lia.
Qed.

Lemma generateSequence_all_int32_witness :
  - 2 ^ 31 <= 470159879 <= 2 ^ 31 - 1.
Proof.
  apply (generateSequence_all_int32 (2 ^ 40 + 7) 2 1 470159879).
  vm_compute. reflexivity.
Defined.

(** X3. A count of zero or below runs no round: the result is empty. *)
Theorem generateSequence_nonpositive (s n : Z) :
  n <= 0 -> generateSequence s n = [].
Proof.
  intros Hn. rewrite generateSequence_iterates.
  replace (Z.to_nat n) with 0%nat by lia. reflexivity.
Qed.

Lemma generateSequence_nonpositive_witness : generateSequence 7 (-3) = [].
Proof. apply (generateSequence_nonpositive 7 (-3)). lia. Defined.

Lemma stepper_iter_add (a b : nat) (s : Z) :
  stepper_iter (a + b) s = stepper_iter b (stepper_iter a s).
Proof.
  unfold stepper_iter. rewrite Nat.add_comm. apply Nat.iter_add.
Qed.

Lemma generateSequence_last (s n : Z) :
  last (generateSequence s n)
  = if Z.to_nat n is S k then Some (stepper_iter (S k) s) else None.
Proof.
  rewrite generateSequence_iterates.
  destruct (Z.to_nat n) as [| k]; [reflexivity |].
  rewrite seq_S, fmap_app. cbn [fmap list_fmap]. apply last_snoc.
Qed.

(** Generating [n + m] values is generating [n] values and then [m] from
    the [n]-th iterate of the seed. *)
Lemma generateSequence_app (s n m : Z) :
  0 <= n -> 0 <= m ->
  generateSequence s (n + m)
  = generateSequence s n ++ generateSequence (stepper_iter (Z.to_nat n) s) m.
Proof.
  intros Hn Hm. rewrite !generateSequence_iterates.
  rewrite Z2Nat.inj_add by lia.
  rewrite seq_app, fmap_app. cbn [Nat.add].
  apply (f_equal (app (_ <$> seq 0 (Z.to_nat n)))).
  rewrite <- (Nat.add_0_r (Z.to_nat n)) at 1.
  rewrite <- (fmap_add_seq (Z.to_nat n) 0), <- list_fmap_compose.
  apply list_fmap_ext. intros j k _. cbn [compose].
  change (S (Z.to_nat n + k)) with (S (Z.to_nat n) + k)%nat.
  rewrite <- stepper_iter_add. f_equal. lia.
Qed.

Lemma generateSequence_prefix (s k n : Z) :
  0 <= k <= n ->
  take (Z.to_nat k) (generateSequence s n) = generateSequence s k.
Proof.
  intros Hk. replace n with (k + (n - k)) by lia.
  rewrite generateSequence_app by lia.
  rewrite take_app_length'; [reflexivity |].
  symmetry. apply generateSequence_length.
Qed.

Lemma generateSequence_fixed (p n : Z) :
  fixed_point p -> generateSequence p n = replicate (Z.to_nat n) p.
Proof.
  intros Hp. rewrite generateSequence_iterates.
  generalize 0%nat as start.
  induction (Z.to_nat n) as [| m IH]; intros start; [reflexivity |].
  cbn [seq fmap list_fmap replicate]. f_equal; [| apply IH].
  apply stepper_iter_fixed, Hp.
Qed.

(** X4. Generating [n + m] values is generating [n] values and then [m]
    more from the last value produced (from the seed itself when [n] is
    0). *)
Theorem generateSequence_resume (s n m : Z) :
  0 <= n -> 0 <= m ->
  generateSequence s (n + m)
  = generateSequence s n
    ++ generateSequence (default s (last (generateSequence s n))) m.
Proof.
  intros Hn Hm.
  assert (Hlast : default s (last (generateSequence s n))
                  = stepper_iter (Z.to_nat n) s).
  { rewrite generateSequence_last. destruct (Z.to_nat n); reflexivity. }
  rewrite Hlast. apply generateSequence_app; done.
Qed.

Lemma generateSequence_resume_witness :
  generateSequence 1 (2 + 3)
  = generateSequence 1 2
    ++ generateSequence (default 1 (last (generateSequence 1 2))) 3.
Proof. apply (generateSequence_resume 1 2 3); lia. Defined.

(** X5. A shorter run is a prefix of a longer one from the same seed. *)
Theorem generateSequence_take (s k n : Z) :
  0 <= k <= n ->
  take (Z.to_nat k) (generateSequence s n) = generateSequence s k.
Proof. apply generateSequence_prefix. Qed.

Lemma generateSequence_take_witness :
  take (Z.to_nat 5) (generateSequence 1 128) = generateSequence 1 5.
Proof. apply (generateSequence_take 1 5 128). lia. Defined.

(** X6. A value the stepper leaves unchanged absorbs the sequence: once an
    element is such a value (0 is one), every later element equals it. *)
Theorem generateSequence_absorbing (s n p : Z) (k j : nat) :
  fixed_point p -> (k <= j)%nat -> (j < Z.to_nat n)%nat ->
  generateSequence s n !! k = Some p ->
  generateSequence s n !! j = Some p.
Proof.
  intros Hp Hkj Hj Hk.
  rewrite generateSequence_lookup in Hk by lia.
  rewrite generateSequence_lookup by lia.
  assert (Hk' : stepper_iter (S k) s = p) by congruence. f_equal.
  replace (S j) with (S k + (j - k))%nat by lia.
  rewrite stepper_iter_add, Hk'. apply stepper_iter_fixed, Hp.
Qed.

Lemma generateSequence_absorbing_witness :
  generateSequence (-67100673) 3 !! 2%nat = Some 0.
Proof.
  apply (generateSequence_absorbing (-67100673) 3 0 0 2).
  - unfold fixed_point. vm_compute. reflexivity.
  - lia.
  - vm_compute. lia.
  - vm_compute. reflexivity.
Defined.

(** ** Seeds that collide *)

Lemma lxor_mod_pow2 (x y n : Z) :
  0 <= n -> Z.lxor x y mod 2 ^ n = Z.lxor (x mod 2 ^ n) (y mod 2 ^ n).
Proof.
  intros Hn. rewrite <- !Z.land_ones by done.
  apply Z.bits_inj'. intros i Hi.
  rewrite Z.lxor_spec, !Z.land_spec, Z.lxor_spec.
  destruct (Z.testbit x i), (Z.testbit y i), (Z.testbit (Z.ones n) i);
    reflexivity.
Qed.

Lemma ToInt32_lxor (a b : Z) :
  JS.ToInt32 (Z.lxor a b) = Z.lxor (JS.ToInt32 a) (JS.ToInt32 b).
Proof.
  apply int32_mod_inj.
  - apply ToInt32_range.
  - apply lxor_int32; apply ToInt32_range.
  - rewrite ToInt32_mod, !lxor_mod_pow2, !ToInt32_mod by lia. reflexivity.
Qed.

Lemma lxor_swap4 (a b c d : Z) :
  Z.lxor (Z.lxor a b) (Z.lxor c d) = Z.lxor (Z.lxor a c) (Z.lxor b d).
Proof.
  apply Z.bits_inj'. intros i Hi. rewrite !Z.lxor_spec.
  destruct (Z.testbit a i), (Z.testbit b i), (Z.testbit c i),
    (Z.testbit d i); reflexivity.
Qed.

(** Flipping every bit of a number does not change what it gives when
    combined with its own sign-propagating shift: the second round cannot
    tell a value from its complement. *)
Lemma second_round_complement (x k : Z) :
  0 < k ->
  Z.lxor (Z.lxor x (-1)) (Z.shiftr (Z.lxor x (-1)) k)
  = Z.lxor x (Z.shiftr x k).
Proof.
  intros Hk. rewrite Z.shiftr_lxor.
  assert (Hm : Z.shiftr (-1) k = -1).
  { rewrite Z.shiftr_div_pow2 by lia.
    pose proof (Z.pow_pos_nonneg 2 k eq_refl ltac:(lia)) as Hp.
    assert (1 < 2 ^ k) by (apply Z.pow_gt_1; lia).
    Z.div_mod_to_equations. nia. }
  rewrite Hm, lxor_swap4, Z.lxor_nilpotent, Z.lxor_0_r. reflexivity.
Qed.

Lemma mix_collision (s : Z) : mix (Z.lxor s (-67100673)) = mix s.
Proof.
  unfold mix. cbv zeta.
  assert (H1 : Z.lxor (Z.lxor s (-67100673))
                 (JS.ToInt32 (Z.lxor s (-67100673) * 2 ^ 13))
               = Z.lxor (Z.lxor s (JS.ToInt32 (s * 2 ^ 13))) (-1)).
  { rewrite <- !Z.shiftl_mul_pow2 by lia.
    rewrite Z.shiftl_lxor, ToInt32_lxor, lxor_swap4.
    f_equal. }
  rewrite H1, second_round_complement by lia. reflexivity.
Qed.

(** X7. The stepper is two-to-one at least: a 32-bit seed and the seed
    with the bits of 0xFC001FFF flipped are different 32-bit seeds with the
    same next value, hence the same generated sequence. *)
Theorem xorshift32_collision (s n : Z) :
  int32 s ->
  let t := Z.lxor s (-67100673) in
  int32 t /\ t <> s /\
  xorshift32 t = xorshift32 s /\
  generateSequence t n = generateSequence s n.
Proof.
  intros Hs t.
  assert (Ht : int32 t) by (apply lxor_int32; [done | unfold int32; lia]).
  assert (E : xorshift32 t = xorshift32 s).
  { rewrite !xorshift32_mix, !ToInt32_id by done. apply mix_collision. }
  repeat split; try apply Ht; try exact E.
  - intros Heq. unfold t in Heq.
    assert (Hc : Z.lxor s (Z.lxor s (-67100673)) = -67100673)
      by (rewrite <- Z.lxor_assoc, Z.lxor_nilpotent; reflexivity).
    rewrite Heq, Z.lxor_nilpotent in Hc. discriminate Hc.
  - apply generateSequence_same_step, E.
Qed.

Lemma xorshift32_collision_witness :
  xorshift32 (Z.lxor 1 (-67100673)) = xorshift32 1.
Proof.
  apply (xorshift32_collision 1 0). unfold int32. lia.
Defined.

(** ** The kernel of the stepper *)

Lemma xor_linear_0 (F : Z -> Z) : xor_linear F -> F 0 = 0.
Proof.
  intros HF. pose proof (HF 0 0) as H.
  rewrite !Z.lxor_nilpotent in H. exact H.
Qed.

Lemma cond_lxor (p q : bool) (g : Z) :
  (if xorb p q then g else 0)
  = Z.lxor (if p then g else 0) (if q then g else 0).
Proof.
  destruct p, q; cbn [xorb];
    rewrite ?Z.lxor_nilpotent, ?Z.lxor_0_r, ?Z.lxor_0_l; reflexivity.
Qed.

Lemma table_apply_linear (table : list Z) :
  forall k, xor_linear (table_apply k table).
Proof.
  induction table as [| g rest IH]; intros k a b; cbn [table_apply].
  - reflexivity.
  - rewrite Z.lxor_spec, cond_lxor, IH. apply lxor_swap4.
Qed.

Lemma mix_linear : xor_linear mix.
Proof.
  intros a b. unfold mix. cbv zeta.
  assert (H1 : Z.lxor (Z.lxor a b) (JS.ToInt32 (Z.lxor a b * 2 ^ 13))
               = Z.lxor (Z.lxor a (JS.ToInt32 (a * 2 ^ 13)))
                        (Z.lxor b (JS.ToInt32 (b * 2 ^ 13)))).
  { rewrite <- !Z.shiftl_mul_pow2 by lia.
    rewrite Z.shiftl_lxor, ToInt32_lxor. apply lxor_swap4. }
  rewrite H1.
  set (a1 := Z.lxor a _). set (b1 := Z.lxor b _).
  assert (H2 : Z.lxor (Z.lxor a1 b1) (Z.shiftr (Z.lxor a1 b1) 17)
               = Z.lxor (Z.lxor a1 (Z.shiftr a1 17))
                        (Z.lxor b1 (Z.shiftr b1 17))).
  { rewrite Z.shiftr_lxor. apply lxor_swap4. }
  rewrite H2.
  set (a2 := Z.lxor a1 _). set (b2 := Z.lxor b1 _).
  rewrite <- !Z.shiftl_mul_pow2 by lia.
  rewrite Z.shiftl_lxor, ToInt32_lxor. apply lxor_swap4.
Qed.

Lemma land_shiftl_small (a b n : Z) :
  0 <= n -> 0 <= a < 2 ^ n -> Z.land a (Z.shiftl b n) = 0.
Proof.
  intros Hn Ha. apply Z.bits_inj'. intros i Hi.
  rewrite Z.land_spec, Z.bits_0.
  destruct (Z.lt_ge_cases i n) as [Hlt | Hge].
  - rewrite Z.shiftl_spec_low by done. apply andb_false_r.
  - rewrite <- (Z.mod_small a (2 ^ n)) by done.
    rewrite Z.mod_pow2_bits_high by lia. reflexivity.
Qed.

Lemma lxor_shiftl_add (a b n : Z) :
  0 <= n -> 0 <= a < 2 ^ n -> Z.lxor a (b * 2 ^ n) = a + b * 2 ^ n.
Proof.
  intros Hn Ha. rewrite <- Z.shiftl_mul_pow2 by done.
  symmetry. apply Z.add_nocarry_lxor, land_shiftl_small; done.
Qed.

(** Two linear maps that agree on the powers of two below 2^n agree below
    2^n. *)
Lemma agree_below (F H : Z -> Z) (n : nat) :
  xor_linear F -> xor_linear H ->
  (forall i : nat, (i < n)%nat -> F (2 ^ Z.of_nat i) = H (2 ^ Z.of_nat i)) ->
  forall x, 0 <= x < 2 ^ Z.of_nat n -> F x = H x.
Proof.
  intros HF HH. induction n as [| n IH]; intros Hb x Hx.
  - assert (x = 0) as -> by (cbn in Hx; lia).
    rewrite !xor_linear_0; done.
  - rewrite Nat2Z.inj_succ, Z.pow_succ_r in Hx by lia.
    destruct (Z.lt_ge_cases x (2 ^ Z.of_nat n)) as [Hlo | Hhi].
    + apply IH; [intros i Hi; apply Hb; lia | lia].
    + replace x with (Z.lxor (x - 2 ^ Z.of_nat n) (1 * 2 ^ Z.of_nat n))
        by (rewrite lxor_shiftl_add; lia).
      rewrite HF, HH, Z.mul_1_l. f_equal.
      * apply IH; [intros i Hi; apply Hb; lia | lia].
      * apply Hb. lia.
Qed.

(** Two linear maps that agree on the one-bit seeds agree on the 32-bit
    signed integers. *)
Lemma agree_int32 (F H : Z -> Z) :
  xor_linear F -> xor_linear H ->
  Forall (fun e => F e = H e) one_bit_seeds ->
  forall x, int32 x -> F x = H x.
Proof.
  intros HF HH Hseeds x Hx. unfold one_bit_seeds in Hseeds.
  apply Forall_app in Hseeds as [Hpow Hsign].
  rewrite Forall_singleton in Hsign.
  assert (Hb : forall i : nat, (i < 31)%nat ->
                 F (2 ^ Z.of_nat i) = H (2 ^ Z.of_nat i)).
  { intros i Hi. rewrite Forall_fmap, Forall_forall in Hpow.
    apply (Hpow i). apply elem_of_seq. lia. }
  unfold int32 in Hx. pow2_consts.
  destruct (Z.lt_ge_cases x 0) as [Hneg | Hpos].
  - replace x with (Z.lxor (x + 2147483648) ((-1) * 2 ^ 31))
      by (rewrite lxor_shiftl_add; pow2_consts; lia).
    rewrite HF, HH. change ((-1) * 2 ^ 31) with (- 2 ^ 31). f_equal.
    + apply (agree_below F H 31 HF HH Hb).
      change (2 ^ Z.of_nat 31) with 2147483648. lia.
    + exact Hsign.
  - apply (agree_below F H 31 HF HH Hb).
    change (2 ^ Z.of_nat 31) with 2147483648. lia.
Qed.

Lemma step_diff_linear : xor_linear step_diff.
Proof.
  intros a b. unfold step_diff. rewrite mix_linear. apply lxor_swap4.
Qed.

Lemma toggle_linear (j p : Z) : xor_linear (toggle j p).
Proof.
  intros a b. unfold toggle. rewrite Z.lxor_spec, cond_lxor.
  apply lxor_swap4.
Qed.

Lemma toggle_zero (j p x : Z) : toggle j p x = 0 -> x = 0 \/ x = p.
Proof.
  unfold toggle. intros H. apply Z.lxor_eq in H.
  destruct (Z.testbit x j); auto.
Qed.

Lemma fixed_point_certificate (x : Z) :
  int32 x ->
  table_apply 0 fixed_point_table (step_diff x) = toggle 3 1311113528 x.
Proof.
  apply (agree_int32
           (fun x => table_apply 0 fixed_point_table (step_diff x))
           (toggle 3 1311113528)).
  - intros a b. rewrite step_diff_linear. apply table_apply_linear.
  - apply toggle_linear.
  - apply (bool_decide_unpack _). vm_compute. reflexivity.
Qed.

Lemma collision_certificate (x : Z) :
  int32 x ->
  table_apply 0 collision_table (mix x) = toggle 0 (-67100673) x.
Proof.
  apply (agree_int32
           (fun x => table_apply 0 collision_table (mix x))
           (toggle 0 (-67100673))).
  - intros a b. rewrite mix_linear. apply table_apply_linear.
  - apply toggle_linear.
  - apply (bool_decide_unpack _). vm_compute. reflexivity.
Qed.

Lemma table_apply_0 (table : list Z) (k : Z) : table_apply k table 0 = 0.
Proof. apply xor_linear_0, table_apply_linear. Qed.

Lemma fixed_point_cases (s : Z) :
  int32 s -> fixed_point s -> s = 0 \/ s = 1311113528.
Proof.
  intros Hs Hfix. unfold fixed_point in Hfix.
  rewrite xorshift32_mix, ToInt32_id in Hfix by done.
  apply (toggle_zero 3). rewrite <- fixed_point_certificate by done.
  unfold step_diff. rewrite Hfix, Z.lxor_nilpotent. apply table_apply_0.
Qed.

(** X8. Among the 32-bit seeds the stepper leaves exactly two unchanged,
    0 and 1311113528; they are the only 32-bit seeds from which a
    non-empty generated sequence is the seed repeated. *)
Theorem xorshift32_fixed_points (s n : Z) :
  int32 s -> 0 < n ->
  (fixed_point s <-> s = 0 \/ s = 1311113528) /\
  (generateSequence s n = replicate (Z.to_nat n) s
   <-> s = 0 \/ s = 1311113528).
Proof.
  intros Hs Hn.
  assert (Hback : s = 0 \/ s = 1311113528 -> fixed_point s)
    by (unfold fixed_point; intros [-> | ->]; vm_compute; reflexivity).
  split; split; try exact Hback; try apply (fixed_point_cases s Hs).
  - intros Hrep. apply (fixed_point_cases s Hs). unfold fixed_point.
    assert (H0 : generateSequence s n !! 0%nat = Some (xorshift32 s))
      by (rewrite generateSequence_lookup by lia; reflexivity).
    rewrite Hrep, lookup_replicate_2 in H0 by lia. congruence.
  - intros Hcase. apply generateSequence_fixed, Hback, Hcase.
Qed.

Lemma xorshift32_fixed_points_witness :
  generateSequence 1311113528 3 = replicate (Z.to_nat 3) 1311113528
  <-> 1311113528 = 0 \/ 1311113528 = 1311113528.
Proof.
  apply (xorshift32_fixed_points 1311113528 3); [unfold int32; lia | lia].
Defined.

(** X9. The stepper is exactly two-to-one on the 32-bit seeds: two of
    them have the same next value only when they are equal or differ by
    the bits of 0xFC001FFF. *)
Theorem xorshift32_same_next (s t : Z) :
  int32 s -> int32 t ->
  (xorshift32 s = xorshift32 t <-> t = s \/ t = Z.lxor s (-67100673)).
Proof.
  intros Hs Ht. split.
  - intros E. rewrite !xorshift32_mix, !ToInt32_id in E by done.
    assert (Hz : mix (Z.lxor s t) = 0)
      by (rewrite mix_linear, E; apply Z.lxor_nilpotent).
    assert (Hk : Z.lxor s t = 0 \/ Z.lxor s t = -67100673).
    { apply (toggle_zero 0).
      rewrite <- collision_certificate by (apply lxor_int32; done).
      rewrite Hz. apply table_apply_0. }
    destruct Hk as [Hk | Hk].
    + left. symmetry. apply Z.lxor_eq, Hk.
    + right. rewrite <- Hk, <- Z.lxor_assoc, Z.lxor_nilpotent.
      reflexivity.
  - intros [-> | ->]; [reflexivity |].
    rewrite !xorshift32_mix, !ToInt32_id
      by first [done | apply lxor_int32; [done | unfold int32; lia]].
    symmetry. apply mix_collision.
Qed.

Lemma xorshift32_same_next_witness :
  xorshift32 1 = xorshift32 (-67100674)
  <-> -67100674 = 1 \/ -67100674 = Z.lxor 1 (-67100673).
Proof.
  apply (xorshift32_same_next 1 (-67100674)); unfold int32; lia.
Defined.

(** ** The drivers, on every answer of the remote side *)

Section Requests.

Variable JSON_parse : string -> option JSValue.
Variable JSON_stringify : JSValue -> string.
Variable text_to_int32 : JSValue -> Z.
Variable remote : nat -> Request -> FetchResult.

Local Abbreviation endA :=
  (snd (script_A JSON_parse JSON_stringify text_to_int32
          (initial_world remote))).

(** From the POST on, Script A sends nothing more. *)
Ltac run_post_phase :=
  destruct (remote 1%nat _) as [| ?status2 [?text2 |]]; cbn;
  [ | destruct ((200 <=? _) && (_ <=? 299)); cbn;
      [ destruct (JSON_parse _); cbn | ] | ].

Ltac sent_two :=
  right; eexists _, _; split;
  [reflexivity
  | split; [apply generateSequence_length | apply generateSequence_int32]].

(* An entry of a console given entry by entry is an error only in the
   last place. *)
Ltac entry_last :=
  let Hi := fresh "Hi" in
  let Hl := fresh "Hl" in
  intros [| [| [| [| [| [| [| i]]]]]]] entry Hi Hl; cbn in Hi;
  first [ discriminate Hi
        | injection Hi as <-; first [discriminate Hl | reflexivity] ].

(** X10. Whatever the remote side answers, Script A sends its GET first
    and after it at most one request, a POST to the same URL whose
    [generated] field holds 128 numbers, all 32-bit signed integers: there
    is no second GET and no second POST. *)
Theorem solveChallenge_requests :
  sent endA = [get_A] \/
  exists uid seed,
    sent endA
    = [get_A; post_A JSON_stringify uid (generateSequence seed 128)] /\
    length (generateSequence seed 128) = 128%nat /\
    Forall int32 (generateSequence seed 128).
Proof.
  unfold get_A, post_A. run_ops. cbn.
  destruct (remote 0%nat _) as [| status [text |]]; cbn; [by left | | ].
  2: { destruct ((200 <=? status) && (status <=? 299)); cbn; by left. }
  destruct ((200 <=? status) && (status <=? 299)); cbn; [| by left].
  destruct (JSON_parse text) as [data |]; cbn; [| by left].
  destruct data as [| | b | n | s | items | fields]; cbn;
    try (by left); try (run_post_phase; sent_two).
  destruct (to_primitive_throws (lookup_field "uid" fields)); cbn;
    [by left |].
  destruct (to_primitive_throws (lookup_field "initialSeed" fields));
    cbn; [by left |].
  run_post_phase; sent_two.
Qed.

(** X11. Script A stops at its first error: the console holds at most one
    entry written by [console.error], and that entry is the last one. *)
Theorem solveChallenge_error_is_last :
  forall (i : nat) (entry : LogEntry),
    console endA !! i = Some entry ->
    log_level entry = LevelError ->
    S i = length (console endA).
Proof.
  run_ops. cbn.
  destruct (remote 0%nat _) as [| status [text |]]; cbn; [entry_last | | ].
  2: { destruct ((200 <=? status) && (status <=? 299)); cbn; entry_last. }
  destruct ((200 <=? status) && (status <=? 299)); cbn; [| entry_last].
  destruct (JSON_parse text) as [data |]; cbn; [| entry_last].
  destruct data as [| | b | n | s | items | fields]; cbn;
    try entry_last; try (run_post_phase; entry_last).
  destruct (to_primitive_throws (lookup_field "uid" fields)); cbn;
    [entry_last |].
  destruct (to_primitive_throws (lookup_field "initialSeed" fields));
    cbn; [entry_last |].
  run_post_phase; entry_last.
Qed.

End Requests.

Lemma solveChallenge_error_is_last_witness :
  (S 1 = length (console (snd (script_A Sample.parse Sample.stringify
                                 Sample.text_to_int32
                                 (initial_world Sample.unreachable)))))%nat.
Proof.
  apply (solveChallenge_error_is_last Sample.parse Sample.stringify
           Sample.text_to_int32 Sample.unreachable 1
           (caught_entry NetworkError)); reflexivity.
Defined.

Section Answers.

Variable JSON_parse : string -> option JSValue.
Variable JSON_stringify : JSValue -> string.
Variable text_to_int32 : JSValue -> Z.
Variable remote : nat -> Request -> FetchResult.

Local Abbreviation runA :=
  (script_A JSON_parse JSON_stringify text_to_int32 (initial_world remote)).
Local Abbreviation runB :=
  (script_B JSON_parse JSON_stringify (initial_world remote)).

(** X12. When the GET fails, Script A sends nothing after it: a failed
    transfer, a status outside 200-299 (whatever the body), a body whose
    transfer fails, a body that does not parse and a body that parses to
    [null] all leave the GET as the only request. *)
Theorem solveChallenge_no_post_after_failed_get :
  (remote 0%nat get_A = NetFail -> sent (snd runA) = [get_A]) /\
  (forall status body,
     remote 0%nat get_A = Resp status body -> ~ 200 <= status <= 299 ->
     sent (snd runA) = [get_A]) /\
  (forall status,
     remote 0%nat get_A = Resp status None -> sent (snd runA) = [get_A]) /\
  (forall status text,
     remote 0%nat get_A = Resp status (Some text) ->
     JSON_parse text = None -> sent (snd runA) = [get_A]) /\
  (forall status text,
     remote 0%nat get_A = Resp status (Some text) ->
     JSON_parse text = Some JNull ->
     sent (snd runA) = [get_A] /\
     (200 <= status <= 299 ->
      last (console (snd runA)) = Some (caught_entry TypeError))).
Proof.
  unfold get_A. repeat apply conj.
  - intros Hget. run_ops. cbn. rewrite Hget. reflexivity.
  - intros status body Hget Hst. run_ops. cbn. rewrite Hget. cbn.
    rewrite (ok_status_false status Hst). reflexivity.
  - intros status Hget. run_ops. cbn. rewrite Hget. cbn.
    destruct ((200 <=? status) && (status <=? 299)); reflexivity.
  - intros status text Hget Hparse. run_ops. cbn. rewrite Hget. cbn.
    destruct ((200 <=? status) && (status <=? 299)); cbn;
      [rewrite Hparse |]; reflexivity.
  - intros status text Hget Hparse. run_ops. cbn. rewrite Hget. cbn.
    destruct ((200 <=? status) && (status <=? 299)) eqn:Hok; cbn.
    + rewrite Hparse. split; reflexivity.
    + split; [reflexivity |]. intros Hst.
      rewrite (ok_status_true status Hst) in Hok. discriminate Hok.
Qed.

(** X13. A payload without [initialSeed] (the key is missing or null, or
    the payload is not an object) is not an error for Script A: the seed
    counts as 0 and, [uid] being printable, the POST carries 128 zeros. *)
Theorem solveChallenge_missing_seed
  (status : Z) (text : string) (data uid initialSeed : JSValue) :
  remote 0%nat get_A = Resp status (Some text) ->
  200 <= status <= 299 ->
  JSON_parse text = Some data ->
  get_property data "uid" = OK uid ->
  get_property data "initialSeed" = OK initialSeed ->
  initialSeed = JUndefined \/ initialSeed = JNull ->
  to_primitive_throws uid = false ->
  sent (snd runA) = [get_A; post_A JSON_stringify uid (replicate 128 0)].
Proof.
  intros Hget Hst Hparse Huid Hseed Hmissing Hprint.
  assert (Hzeros : generateSequence 0 128 = replicate 128 0).
  { apply (generateSequence_fixed 0 128). unfold fixed_point.
    vm_compute. reflexivity. }
  unfold get_A, post_A in *. run_ops. cbn.
  rewrite Hget. cbn. rewrite (ok_status_true status Hst). cbn.
  rewrite Hparse. cbn. rewrite Huid. cbn. rewrite Hprint. cbn.
  rewrite Hseed. cbn.
  destruct Hmissing as [-> | ->]; cbn; rewrite Hzeros;
    (destruct (remote 1%nat _) as [| status2 [text2 |]]; cbn;
     [ reflexivity
     | destruct ((200 <=? status2) && (status2 <=? 299)); cbn;
       [ destruct (JSON_parse text2); reflexivity | reflexivity ]
     | reflexivity ]).
Qed.

(** X14. A value that has no string form stops Script A at the log line
    that prints it: when [uid] or [initialSeed] is an object with its own
    [toString] key (or an array holding one), a TypeError is logged and no
    POST is sent. *)
Theorem solveChallenge_unprintable
  (status : Z) (text : string) (data uid initialSeed : JSValue) :
  remote 0%nat get_A = Resp status (Some text) ->
  200 <= status <= 299 ->
  JSON_parse text = Some data ->
  get_property data "uid" = OK uid ->
  get_property data "initialSeed" = OK initialSeed ->
  to_primitive_throws uid = true \/ to_primitive_throws initialSeed = true ->
  fst runA = Completed /\
  sent (snd runA) = [get_A] /\
  last (console (snd runA)) = Some (caught_entry TypeError).
Proof.
  intros Hget Hst Hparse Huid Hseed Hthrows.
  unfold get_A in *. run_ops. cbn.
  rewrite Hget. cbn. rewrite (ok_status_true status Hst). cbn.
  rewrite Hparse. cbn. rewrite Huid. cbn.
  destruct (to_primitive_throws uid); cbn; [done |].
  destruct Hthrows as [Hu | Hs]; [discriminate Hu |].
  rewrite Hseed. cbn. rewrite Hs. done.
Qed.

(** X15. The run of Script A when nothing fails: the console shows the
    five progress lines (the third with the first five generated numbers)
    and then the parsed response, and the run completes. *)
Theorem solveChallenge_success
  (uid : JSValue) (initialSeed status : Z) (text : string) (result : JSValue) :
  get_delivers JSON_parse remote uid initialSeed ->
  to_primitive_throws uid = false ->
  remote 1%nat (post_A JSON_stringify uid (generateSequence initialSeed 128))
  = Resp status (Some text) ->
  200 <= status <= 299 ->
  JSON_parse text = Some result ->
  fst runA = Completed /\
  console (snd runA)
  = [mkLog LevelLog [LText "Fetching initial data..."];
     mkLog LevelLog
       [LTemplate [TText "Received: uid="; TValue uid;
                   TText ", initialSeed="; TValue (JNumber initialSeed)]];
     mkLog LevelLog
       [LTemplate [TText "First few values: ";
                   TJoined (generateSequence initialSeed 5) ", "]];
     mkLog LevelLog [LText "Submitting results..."];
     mkLog LevelLog
       [LTemplate [TText "Response status: "; TValue (JNumber status)]];
     mkLog LevelLog [LText "Success!"; LValue result]].
Proof.
  intros Hd Hprint Hpost Hst2 Hparse2.
  rewrite <- (generateSequence_prefix initialSeed 5 128) by lia.
  destruct Hd as (status1 & text1 & data & Hget & Hst & Hparse & Huid & Hseed).
  unfold get_A, post_A in *. run_ops. cbn.
  rewrite Hget. cbn. rewrite (ok_status_true status1 Hst). cbn.
  rewrite Hparse. cbn. rewrite Huid. cbn. rewrite Hprint. cbn.
  rewrite Hseed. cbn. rewrite Hpost. cbn.
  rewrite (ok_status_true status Hst2). cbn. rewrite Hparse2. cbn.
  split; reflexivity.
Qed.

(** X16. Script B sends its GET and nothing else, and never completes: it
    ends in an unhandled rejection with nothing logged when the transfer
    or the parsing of the body fails, and otherwise logs the parsed body
    once and is rejected by its second read of the body.  The status of
    the response plays no part. *)
Theorem main_outcomes :
  sent (snd runB) = [get_B] /\
  match remote 0%nat get_B with
  | NetFail | Resp _ None =>
      fst runB = UnhandledRejection NetworkError /\ console (snd runB) = []
  | Resp _ (Some text) =>
      match JSON_parse text with
      | None =>
          fst runB = UnhandledRejection JSONSyntaxError /\
          console (snd runB) = []
      | Some v =>
          fst runB = UnhandledRejection BodyUsedError /\
          console (snd runB) = [mkLog LevelLog [LValue v]]
      end
  end.
Proof.
  unfold get_B. run_ops. cbn.
  destruct (remote 0%nat _) as [| status [text |]]; cbn; [done | | done].
  destruct (JSON_parse text); cbn; done.
Qed.

End Answers.

Lemma solveChallenge_no_post_after_failed_get_witness :
  Sample.unreachable 0%nat get_A = NetFail /\
  sent (snd (script_A Sample.parse Sample.stringify Sample.text_to_int32
               (initial_world Sample.unreachable))) = [get_A].
Proof.
  split; [reflexivity |].
  apply (solveChallenge_no_post_after_failed_get Sample.parse
           Sample.stringify Sample.text_to_int32 Sample.unreachable).
  reflexivity.
Defined.

Lemma solveChallenge_missing_seed_witness :
  sent (snd (script_A (fun _ => Some (JObject [("uid", JNumber 7)]))
               Sample.stringify Sample.text_to_int32
               (initial_world (Sample.serving "{}"))))
  = [get_A; post_A Sample.stringify (JNumber 7) (replicate 128 0)].
Proof.
  apply (solveChallenge_missing_seed
           (fun _ => Some (JObject [("uid", JNumber 7)]))
           Sample.stringify Sample.text_to_int32 (Sample.serving "{}")
           200 "{}" (JObject [("uid", JNumber 7)]) (JNumber 7) JUndefined);
    first [reflexivity | lia | left; reflexivity].
Defined.

Lemma solveChallenge_unprintable_witness :
  sent (snd (script_A
               (fun _ => Some (JObject
                                 [("uid", JObject [("toString", JNumber 1)]);
                                  ("initialSeed", JNumber 1)]))
               Sample.stringify Sample.text_to_int32
               (initial_world (Sample.serving "{}"))))
  = [get_A].
Proof.
  apply (solveChallenge_unprintable
           (fun _ => Some (JObject
                             [("uid", JObject [("toString", JNumber 1)]);
                              ("initialSeed", JNumber 1)]))
           Sample.stringify Sample.text_to_int32 (Sample.serving "{}")
           200 "{}"
           (JObject [("uid", JObject [("toString", JNumber 1)]);
                     ("initialSeed", JNumber 1)])
           (JObject [("toString", JNumber 1)]) (JNumber 1));
    first [reflexivity | lia | left; reflexivity].
Defined.

Lemma solveChallenge_success_witness :
  fst (script_A Sample.parse Sample.stringify Sample.text_to_int32
         (initial_world (Sample.serving Sample.seed_payload)))
  = Completed.
Proof.
  apply (solveChallenge_success Sample.parse Sample.stringify
           Sample.text_to_int32 (Sample.serving Sample.seed_payload)
           (JNumber 7) 1 200 Sample.seed_payload
           (JObject [("uid", JNumber 7); ("initialSeed", JNumber 1)])
           sample_get_delivers);
    first [reflexivity | lia].
Defined.
